(** * Territory hierarchy: level assignment and graph construction

    A shallow embedding of [determine_levels] and [create_graph] of
    [tm-app.py], and the properties of the two functions.

    Python values are modelled as follows.
    - A territory is a record with the three keys the code reads, [Id],
      [Name] and [ParentTerritory2Id]; the parent is [None] or a string.
    - A [dict] is an association list in insertion order: assigning to an
      existing key keeps its position, a new key goes to the end.  The order
      is observable through [list(levels.keys())].
    - [children] is a [defaultdict(list)]: reading a missing key stores and
      returns the empty list.
    - Levels are Python integers that only ever grow from 0: [nat].
    - The recursion of [assign_levels] is bounded by a fuel argument, the
      depth of recursion available (in Python, the recursion limit); [None]
      means the recursion did not finish within it.
    - [create_graph] runs on a heap that holds the objects it can reach, so
      that what it reads and what it writes can be told apart; the layout
      engine behind [render] is not modelled. *)

From Stdlib Require Import String List Arith Bool Lia Permutation.
Import ListNotations.
Open Scope string_scope.
Open Scope list_scope.

(** ** Python dictionaries *)

Definition dict (V : Type) : Type := list (string * V).

Fixpoint dict_get {V : Type} (d : dict V) (k : string) : option V :=
  match d with
  | [] => None
  | (k', v) :: d' => if String.eqb k' k then Some v else dict_get d' k
  end.

Fixpoint dict_set {V : Type} (d : dict V) (k : string) (v : V) : dict V :=
  match d with
  | [] => [(k, v)]
  | (k', v') :: d' =>
      if String.eqb k' k then (k', v) :: d' else (k', v') :: dict_set d' k v
  end.

Definition dict_keys {V : Type} (d : dict V) : list string := map fst d.

(** [d[k]] on a [defaultdict(list)]: the value and the dictionary afterwards. *)
Definition defaultdict_getitem (d : dict (list string)) (k : string)
  : list string * dict (list string) :=
  match dict_get d k with
  | Some l => (l, d)
  | None => ([], dict_set d k [])
  end.

(** [d[k].append(x)] on a [defaultdict(list)]. *)
Definition defaultdict_append (d : dict (list string)) (k x : string)
  : dict (list string) :=
  let '(l, d1) := defaultdict_getitem d k in dict_set d1 k (l ++ [x]).

(** The list a [defaultdict(list)] answers for [k], without the store. *)
Definition children_of (d : dict (list string)) (k : string) : list string :=
  match dict_get d k with
  | Some l => l
  | None => []
  end.

(** ** Territories *)

Record territory : Type := mkTerritory {
  Id : string;
  Name : string;
  ParentTerritory2Id : option string
}.

(** Python truth value of a parent reference: [None] and [""] are false. *)
Definition truthy (p : option string) : bool :=
  match p with
  | Some (String _ _) => true
  | _ => false
  end.
Arguments truthy : simpl never.

(** ** determine_levels *)

(** Local variables of [determine_levels]. *)
Record locals : Type := mkLocals {
  levels : dict nat;
  children : dict (list string)
}.

(** Body of the first loop, for one territory. *)
Definition index_territory (st : locals) (t : territory) : locals :=
  match ParentTerritory2Id t with
  | Some parent =>
      if truthy (Some parent)
      then mkLocals (levels st) (defaultdict_append (children st) parent (Id t))
      else mkLocals (dict_set (levels st) (Id t) 0) (children st)
  | None => mkLocals (dict_set (levels st) (Id t) 0) (children st)
  end.

Definition index_territories (territories : list territory) : locals :=
  fold_left index_territory territories (mkLocals [] []).

(** A [for] loop whose body may fail to finish. *)
Fixpoint for_each {A S : Type} (body : A -> S -> option S) (l : list A) (s : S)
  : option S :=
  match l with
  | [] => Some s
  | x :: l' =>
      match body x s with
      | Some s' => for_each body l' s'
      | None => None
      end
  end.

(** The nested function [assign_levels(node, level)]; it reads and writes the
    enclosing [levels] and [children]. *)
Fixpoint assign_levels (fuel : nat) (node : string) (level : nat) (st : locals)
  : option locals :=
  match fuel with
  | O => None
  | S fuel' =>
      let '(cs, children1) := defaultdict_getitem (children st) node in
      for_each
        (fun child st' =>
           assign_levels fuel' child (level + 1)
             (mkLocals (dict_set (levels st') child (level + 1)) (children st')))
        cs (mkLocals (levels st) children1)
  end.

Definition determine_levels (fuel : nat) (territories : list territory)
  : option (dict nat) :=
  let st := index_territories territories in
  let initial_nodes := dict_keys (levels st) in
  match for_each (fun node st' => assign_levels fuel node 0 st') initial_nodes st with
  | Some st' => Some (levels st')
  | None => None
  end.

(** ** create_graph *)

Inductive exn : Type :=
| KeyError (key : string)
| IndexError (index : nat).

Inductive result (A : Type) : Type :=
| Ok (a : A)
| Raise (e : exn).
Arguments Ok {A} a.
Arguments Raise {A} e.

(** Statements of a [graphviz.Digraph] body, in the order they were added. *)
Inductive stmt : Type :=
| AttrStmt (kw : string) (attrs : list (string * string))
| NodeStmt (name label : string)
| EdgeStmt (tail head color : string).

Record Digraph : Type := mkDigraph {
  comment : string;
  format : string;
  graph_attr : dict string;
  body : list stmt
}.

(** What [render] leaves on disk: the DOT source and the rendered picture.
    The layout engine is not modelled; a picture is named by its input. *)
Inductive file : Type :=
| DotSource (g : Digraph)
| Rendered (fmt : string) (g : Digraph).

(** The objects [create_graph] can reach: the two arguments (passed by
    reference), the graph object it builds, and the file system. *)
Record heap : Type := mkHeap {
  h_territories : list territory;
  h_levels : dict nat;
  h_dot : Digraph;
  h_files : dict file
}.

Definition M (A : Type) : Type := heap -> result A * heap.

Definition ret {A : Type} (a : A) : M A := fun h => (Ok a, h).

Definition bind {A B : Type} (m : M A) (k : A -> M B) : M B :=
  fun h =>
    match m h with
    | (Ok a, h') => k a h'
    | (Raise e, h') => (Raise e, h')
    end.

Notation "x <- m ;; k" := (bind m (fun x => k))
  (at level 61, m at next level, right associativity).
Notation "m ;; k" := (bind m (fun _ => k))
  (at level 61, right associativity).

Fixpoint for_each_m {A : Type} (body : A -> M unit) (l : list A) : M unit :=
  match l with
  | [] => ret tt
  | x :: l' => body x ;; for_each_m body l'
  end.

Definition set_dot (g : Digraph) (h : heap) : heap :=
  mkHeap (h_territories h) (h_levels h) g (h_files h).

Definition set_files (fs : dict file) (h : heap) : heap :=
  mkHeap (h_territories h) (h_levels h) (h_dot h) fs.

Definition add_stmt (s : stmt) (g : Digraph) : Digraph :=
  mkDigraph (comment g) (format g) (graph_attr g) (body g ++ [s]).

(** [dot = graphviz.Digraph(comment=..., format=...)] *)
Definition new_Digraph (cmt fmt : string) : M unit :=
  fun h => (Ok tt, set_dot (mkDigraph cmt fmt [] []) h).

(** [dot.attr(rankdir=..., size=...)]: updates the graph attributes. *)
Definition dot_attr_graph (attrs : list (string * string)) : M unit :=
  fun h =>
    let g := h_dot h in
    let ga := fold_left (fun d kv => dict_set d (fst kv) (snd kv)) attrs (graph_attr g) in
    (Ok tt, set_dot (mkDigraph (comment g) (format g) ga (body g)) h).

(** [dot.attr('node', shape=...)]: adds an attribute statement to the body. *)
Definition dot_attr (kw : string) (attrs : list (string * string)) : M unit :=
  fun h => (Ok tt, set_dot (add_stmt (AttrStmt kw attrs) (h_dot h)) h).

Definition dot_node (name label : string) : M unit :=
  fun h => (Ok tt, set_dot (add_stmt (NodeStmt name label) (h_dot h)) h).

Definition dot_edge (tail head color : string) : M unit :=
  fun h => (Ok tt, set_dot (add_stmt (EdgeStmt tail head color) (h_dot h)) h).

(** [dot.render(filepath, format=fmt, view=False)] *)
Definition dot_render (filepath fmt : string) : M unit :=
  fun h =>
    let g := h_dot h in
    let fs1 := dict_set (h_files h) filepath (DotSource g) in
    let fs2 := dict_set fs1 (filepath ++ "." ++ fmt)%string (Rendered fmt g) in
    (Ok tt, set_files fs2 h).

Definition get_territories : M (list territory) :=
  fun h => (Ok (h_territories h), h).

(** [levels[key]] on a plain dict. *)
Definition levels_getitem (key : string) : M nat :=
  fun h =>
    match dict_get (h_levels h) key with
    | Some v => (Ok v, h)
    | None => (Raise (KeyError key), h)
    end.

(** [l[i]] on a list, for an index that is not negative. *)
Definition list_getitem (l : list string) (i : nat) : M string :=
  fun h =>
    match nth_error l i with
    | Some v => (Ok v, h)
    | None => (Raise (IndexError i), h)
    end.

Definition colors : list string :=
  ["black"; "blue"; "green"; "red"; "purple"; "orange"].

(** Body of the loop of [create_graph], for one territory. *)
Definition add_territory (t : territory) : M unit :=
  dot_node (Id t) (Name t) ;;
  match ParentTerritory2Id t with
  | Some parent =>
      if truthy (Some parent)
      then
        level <- levels_getitem (Id t) ;;
        color <- list_getitem colors (level mod length colors) ;;
        dot_edge parent (Id t) color
      else ret tt
  | None => ret tt
  end.

Definition create_graph (output_format size : string) : M string :=
  new_Digraph "Salesforce Territories" output_format ;;
  dot_attr_graph
    [("rankdir", "LR"); ("size", size); ("nodesep", "1"); ("ranksep", "2")] ;;
  dot_attr "node"
    [("shape", "rect"); ("style", "filled"); ("color", "lightblue2");
     ("fontname", "Helvetica"); ("fontsize", "12")] ;;
  territories <- get_territories ;;
  for_each_m add_territory territories ;;
  let output_file := "/tmp/territories" in
  dot_render output_file output_format ;;
  ret (output_file ++ "." ++ output_format)%string.

(** The graph object before [create_graph] has run, and a heap holding the
    two arguments of a call. *)
Definition no_graph : Digraph := mkDigraph "" "" [] [].

Definition call_heap (territories : list territory) (lv : dict nat) : heap :=
  mkHeap territories lv no_graph [].

(** The directed edges of a body, in order. *)
Definition edges (b : list stmt) : list (string * string * string) :=
  flat_map
    (fun s => match s with
              | EdgeStmt tl hd c => [(tl, hd, c)]
              | _ => []
              end) b.

(** ** Vocabulary of the specification *)

(** The data model asks for unique identifiers. *)
Definition unique_ids (ts : list territory) : Prop := NoDup (map Id ts).

(** A root is the id of a record whose parent is false ([None] or [""]). *)
Definition is_root (ts : list territory) (r : string) : Prop :=
  exists t, In t ts /\ Id t = r /\ truthy (ParentTerritory2Id t) = false.

(** [c] is the id of a record whose parent is the non-empty string [p]. *)
Definition is_child (ts : list territory) (p c : string) : Prop :=
  exists t, In t ts /\ Id t = c /\ ParentTerritory2Id t = Some p
            /\ truthy (Some p) = true.

(** [chain ts path x]: [x] is reached from a root along parent links;
    [path] lists the ancestors of [x], nearest first, the root last. *)
Inductive chain (ts : list territory) : list string -> string -> Prop :=
| chain_root r : is_root ts r -> chain ts [] r
| chain_step path p c :
    chain ts path p -> is_child ts p c -> chain ts (p :: path) c.

(** [desc ts p x]: [x] is below [p], one or more parent links away. *)
Inductive desc (ts : list territory) : string -> string -> Prop :=
| desc_child p c : is_child ts p c -> desc ts p c
| desc_step p c x : is_child ts p c -> desc ts c x -> desc ts p x.

Definition has_parent (p : string) (t : territory) : bool :=
  match ParentTerritory2Id t with
  | Some q => String.eqb q p && truthy (Some q)
  | None => false
  end.

(** Ids of the records whose parent is [p], in input order. *)
Definition child_ids (ts : list territory) (p : string) : list string :=
  map Id (filter (has_parent p) ts).

(** Every entry of a level map is the length of a chain from a root. *)
Definition sound (ts : list territory) (lv : dict nat) : Prop :=
  forall x d, dict_get lv x = Some d ->
    exists path, chain ts path x /\ length path = d.

(** [assign_levels] over a fixed children function, [levels] alone threaded. *)
Fixpoint assign_simple (ch : string -> list string) (fuel : nat)
    (node : string) (level : nat) (lv : dict nat) : option (dict nat) :=
  match fuel with
  | O => None
  | S fuel' =>
      for_each
        (fun child lv' =>
           assign_simple ch fuel' child (level + 1)
             (dict_set lv' child (level + 1)))
        (ch node) lv
  end.

(** The state of [assign_levels] seen through [assign_simple]. *)
Definition related (ch : string -> list string) (st : locals) (lv : dict nat) : Prop :=
  levels st = lv /\ forall k, children_of (children st) k = ch k.


(** A record with its false parent reference replaced by [None]. *)
Definition as_root (t : territory) : territory :=
  if truthy (ParentTerritory2Id t) then t else mkTerritory (Id t) (Name t) None.

(** [colors[level % len(colors)]] *)
Definition level_color (level : nat) : string :=
  nth (level mod length colors) colors "".

(** The statements [create_graph] adds for one territory when its level, if
    it needs one, is in [lv]. *)
Definition territory_stmts (lv : dict nat) (t : territory) : list stmt :=
  NodeStmt (Id t) (Name t) ::
  match ParentTerritory2Id t with
  | Some parent =>
      if truthy (Some parent)
      then match dict_get lv (Id t) with
           | Some level => [EdgeStmt parent (Id t) (level_color level)]
           | None => []
           end
      else []
  | None => []
  end.

(** A record that needs a level and has none. *)
Definition unleveled (lv : dict nat) (t : territory) : bool :=
  truthy (ParentTerritory2Id t)
  && match dict_get lv (Id t) with Some _ => false | None => true end.

(** The outcome of the loop of [create_graph] and the statements it adds:
    it stops at the first record that needs a level and has none, after
    adding the node of that record. *)
Fixpoint loop_trace (lv : dict nat) (ts : list territory)
  : result unit * list stmt :=
  match ts with
  | [] => (Ok tt, [])
  | t :: ts' =>
      if unleveled lv t
      then (Raise (KeyError (Id t)), [NodeStmt (Id t) (Name t)])
      else let '(r, l) := loop_trace lv ts' in (r, territory_stmts lv t ++ l)
  end.

Definition add_stmts (l : list stmt) (g : Digraph) : Digraph :=
  mkDigraph (comment g) (format g) (graph_attr g) (body g ++ l).

(** The parent reference as the tail of an edge. *)
Definition parent_name (t : territory) : string :=
  match ParentTerritory2Id t with
  | Some p => p
  | None => ""
  end.

Definition has_parent_ref (t : territory) : bool := truthy (ParentTerritory2Id t).

(** Every record that has a parent has a level. *)
Definition leveled (lv : dict nat) (ts : list territory) : Prop :=
  forall t, In t ts -> truthy (ParentTerritory2Id t) = true ->
    dict_get lv (Id t) <> None.

(** The two attribute calls at the head of [create_graph]. *)
Definition graph_header (fmt size : string) : Digraph :=
  mkDigraph "Salesforce Territories" fmt
    [("rankdir", "LR"); ("size", size); ("nodesep", "1"); ("ranksep", "2")]
    [AttrStmt "node"
       [("shape", "rect"); ("style", "filled"); ("color", "lightblue2");
        ("fontname", "Helvetica"); ("fontsize", "12")]].

(** ** Inputs used in examples *)

Definition two_level : list territory :=
  [mkTerritory "A" "Root" None; mkTerritory "B" "Child" (Some "A")].

Definition self_parent : list territory := [mkTerritory "A" "A" (Some "A")].

(** One root with a child, a self-parent, a two-cycle, a dangling parent and
    an empty parent reference; all ids distinct. *)
Definition mixed : list territory :=
  [mkTerritory "A" "Root" None; mkTerritory "B" "Child" (Some "A");
   mkTerritory "C" "Self" (Some "C");
   mkTerritory "D" "Cycle1" (Some "E"); mkTerritory "E" "Cycle2" (Some "D");
   mkTerritory "F" "Dangling" (Some "Z"); mkTerritory "G" "Empty" (Some "")].

(** A record whose parent is the empty string, and one whose parent is not
    in the input. *)
Definition empty_parent : list territory := [mkTerritory "G" "Empty" (Some "")].

Definition dangling : list territory := [mkTerritory "F" "Dangling" (Some "Z")].

(** Two independent roots with one child each, and their level map. *)
Definition two_roots : list territory :=
  [mkTerritory "A" "Root1" None; mkTerritory "B" "Child1" (Some "A");
   mkTerritory "X" "Root2" None; mkTerritory "Y" "Child2" (Some "X")].

Definition two_roots_levels : dict nat :=
  [("A", 0); ("X", 0); ("B", 1); ("Y", 1)].

(** The id [A] twice: once as a root, once as its own child. *)
Definition dup_self : list territory :=
  [mkTerritory "A" "Root" None; mkTerritory "A" "Again" (Some "A")].

(** The id [A] twice: once as a root, once as a child of the root [R]. *)
Definition dup_root : list territory :=
  [mkTerritory "R" "Root1" None; mkTerritory "A" "Root2" None;
   mkTerritory "A" "Child" (Some "R")].

(** The id [A] twice: once as a root, once under a parent that is not there. *)
Definition dup_dangling : list territory :=
  [mkTerritory "A" "Root" None; mkTerritory "A" "Orphan" (Some "Z")].

(** A root whose id is the empty string, and a record citing it. *)
Definition empty_id : list territory :=
  [mkTerritory "" "Root" None; mkTerritory "B" "Child" (Some "")].

(** The id [G] twice: once with the empty string as parent, once under the
    root [R]. *)
Definition dup_empty : list territory :=
  [mkTerritory "R" "Root" None; mkTerritory "G" "Empty" (Some "");
   mkTerritory "G" "Child" (Some "R")].

(** The id [A] twice, under [R] and under [M]. *)
Definition dup_two_parents : list territory :=
  [mkTerritory "R" "Root" None; mkTerritory "M" "Mid" (Some "R");
   mkTerritory "A" "First" (Some "R"); mkTerritory "A" "Last" (Some "M")].

(** ** The calls of main *)

(** The node statements of a body, in order. *)
Definition nodes (b : list stmt) : list (string * string) :=
  flat_map
    (fun s => match s with
              | NodeStmt name label => [(name, label)]
              | _ => []
              end) b.

(** The two calls at the core of [main], [levels = determine_levels(...)] and
    [create_graph(territories, levels, output_format, size)], without the
    Streamlit calls around them; [fs] is the file system before. *)
Definition visualize (fuel : nat) (output_format size : string)
    (territories : list territory) (fs : dict file)
  : option (result string * heap) :=
  match determine_levels fuel territories with
  | Some lv => Some (create_graph output_format size (mkHeap territories lv no_graph fs))
  | None => None
  end.

(** Every record that has a parent is reached from a root. *)
Definition rooted (ts : list territory) : Prop :=
  forall t, In t ts -> truthy (ParentTerritory2Id t) = true ->
    exists path, chain ts path (Id t).

(** One root with two children and a grandchild. *)
Definition family : list territory :=
  [mkTerritory "A" "Root" None; mkTerritory "B" "Child1" (Some "A");
   mkTerritory "C" "Child2" (Some "A"); mkTerritory "D" "Grandchild" (Some "C")].

Definition family_levels : dict nat := [("A", 0); ("B", 1); ("C", 1); ("D", 2)].

(** * Examples and lemmas *)

Example scenario1 :
  determine_levels 3 two_level
  = Some [("A", 0); ("B", 1)].
Proof. reflexivity. Qed.

Example scenario1_graph :
  let '(r, h) := create_graph "png" "800,800" (call_heap two_level [("A", 0); ("B", 1)]) in
  r = Ok "/tmp/territories.png" /\ edges (body (h_dot h)) = [("A", "B", "blue")].
Proof. vm_compute. split; reflexivity. Qed.

Example mixed_levels : determine_levels 8 mixed = Some [("A", 0); ("G", 0); ("B", 1)].
Proof. reflexivity. Qed.

Example dup_two_parents_levels :
  determine_levels 5 dup_two_parents = Some [("R", 0); ("M", 1); ("A", 1)].
Proof. reflexivity. Qed.

(** ** Dictionaries *)

Lemma dict_get_set_eq {V : Type} (d : dict V) (k : string) (v : V) :
  dict_get (dict_set d k v) k = Some v.
Proof.
  induction d as [|[k' v'] d IH]; simpl.
  - now rewrite String.eqb_refl.
  - destruct (String.eqb k' k) eqn:E; simpl; rewrite E; auto.
Qed.

Lemma dict_get_set_ne {V : Type} (d : dict V) (k k' : string) (v : V) :
  k <> k' -> dict_get (dict_set d k v) k' = dict_get d k'.
Proof.
  intros Hne. induction d as [|[k0 v0] d IH]; simpl.
  - destruct (String.eqb_spec k k'); [contradiction | reflexivity].
  - destruct (String.eqb_spec k0 k) as [->|Hk]; simpl.
    + destruct (String.eqb_spec k k'); [contradiction | reflexivity].
    + now rewrite IH.
Qed.

Lemma dict_get_set {V : Type} (d : dict V) (k k' : string) (v : V) :
  dict_get (dict_set d k v) k' = if String.eqb k k' then Some v else dict_get d k'.
Proof.
  destruct (String.eqb_spec k k') as [->|Hne].
  - apply dict_get_set_eq.
  - now apply dict_get_set_ne.
Qed.

Lemma dict_set_keeps {V : Type} (d : dict V) (k x : string) (v : V) :
  dict_get d x <> None -> dict_get (dict_set d k v) x <> None.
Proof.
  rewrite dict_get_set. destruct (String.eqb k x); [discriminate | auto].
Qed.

Lemma dict_keys_get {V : Type} (d : dict V) (k : string) :
  In k (dict_keys d) <-> dict_get d k <> None.
Proof.
  induction d as [|[k' v] d IH]; simpl.
  - tauto.
  - destruct (String.eqb_spec k' k) as [->|Hne].
    + split; [discriminate | auto].
    + rewrite <- IH. tauto.
Qed.

Lemma children_of_getitem (d : dict (list string)) (k x : string) :
  fst (defaultdict_getitem d k) = children_of d k
  /\ children_of (snd (defaultdict_getitem d k)) x = children_of d x.
Proof.
  unfold defaultdict_getitem, children_of.
  destruct (dict_get d k) eqn:E; simpl; [tauto|].
  split; [reflexivity|].
  rewrite dict_get_set. destruct (String.eqb_spec k x) as [->|]; [now rewrite E | reflexivity].
Qed.

Lemma children_of_append (d : dict (list string)) (k x p : string) :
  children_of (defaultdict_append d k x) p
  = if String.eqb k p then children_of d p ++ [x] else children_of d p.
Proof.
  unfold defaultdict_append.
  destruct (defaultdict_getitem d k) as [l d1] eqn:E.
  destruct (children_of_getitem d k p) as [Hl Hd]. rewrite E in Hl, Hd. simpl in Hl, Hd.
  unfold children_of at 1. rewrite dict_get_set.
  destruct (String.eqb_spec k p) as [->|]; [now rewrite Hl | exact Hd].
Qed.

(** ** Loops *)

Lemma for_each_inv {A S : Type} (P : S -> Prop) (body : A -> S -> option S)
    (l : list A) :
  (forall x s s', In x l -> P s -> body x s = Some s' -> P s') ->
  forall s s', P s -> for_each body l s = Some s' -> P s'.
Proof.
  induction l as [|x l IH]; simpl; intros Hb s s' Hs Hrun.
  - now inversion Hrun; subst.
  - destruct (body x s) as [s1|] eqn:E; [|discriminate].
    eapply IH; [| |exact Hrun]; eauto.
Qed.

Lemma for_each_total {A S : Type} (body : A -> S -> option S) (l : list A) :
  (forall x s, In x l -> exists s', body x s = Some s') ->
  forall s, exists s', for_each body l s = Some s'.
Proof.
  induction l as [|x l IH]; simpl; intros Hb s.
  - eauto.
  - destruct (Hb x s) as [s1 ->]; auto.
Qed.

Lemma for_each_mono {A S : Type} (body1 body2 : A -> S -> option S) (l : list A) :
  (forall x s s', In x l -> body1 x s = Some s' -> body2 x s = Some s') ->
  forall s s', for_each body1 l s = Some s' -> for_each body2 l s = Some s'.
Proof.
  induction l as [|x l IH]; simpl; intros Hb s s' Hrun; [assumption|].
  destruct (body1 x s) as [s1|] eqn:E; [|discriminate].
  rewrite (Hb x s s1); auto.
Qed.

(** What one iteration establishes for its element, and later iterations
    keep, holds for every element at the end. *)
Lemma for_each_all {A S : Type} (Q : A -> S -> Prop) (body : A -> S -> option S)
    (l : list A) :
  (forall x y s s', Q x s -> body y s = Some s' -> Q x s') ->
  (forall x s s', In x l -> body x s = Some s' -> Q x s') ->
  forall s s', for_each body l s = Some s' -> forall x, In x l -> Q x s'.
Proof.
  intros Hkeep.
  induction l as [|y l IH]; simpl; intros Hest s s' Hrun x Hx; [contradiction|].
  destruct (body y s) as [s1|] eqn:E; [|discriminate].
  destruct Hx as [->|Hx].
  - apply (for_each_inv (Q x) body l) with (s := s1); eauto.
  - eapply IH; eauto.
Qed.

(** Two loops over the same list whose states stay related. *)
Lemma for_each_rel {A S T : Type} (R : S -> T -> Prop)
    (body1 : A -> S -> option S) (body2 : A -> T -> option T) (l : list A) :
  (forall x s t, In x l -> R s t ->
     match body1 x s with
     | Some s' => exists t', body2 x t = Some t' /\ R s' t'
     | None => body2 x t = None
     end) ->
  forall s t, R s t ->
    match for_each body1 l s with
    | Some s' => exists t', for_each body2 l t = Some t' /\ R s' t'
    | None => for_each body2 l t = None
    end.
Proof.
  induction l as [|x l IH]; simpl; intros Hb s t HR.
  - eauto.
  - specialize (Hb x s t (or_introl eq_refl) HR) as Hx.
    destruct (body1 x s) as [s1|].
    + destruct Hx as [t1 [-> HR1]]. apply IH; [|assumption].
      intros y s' t' Hy. apply Hb. now right.
    + now rewrite Hx.
Qed.

(** ** The first loop of determine_levels *)

Lemma index_territory_cases (st : locals) (t : territory) :
  (truthy (ParentTerritory2Id t) = true
   /\ exists p, ParentTerritory2Id t = Some p
        /\ index_territory st t
           = mkLocals (levels st) (defaultdict_append (children st) p (Id t)))
  \/ (truthy (ParentTerritory2Id t) = false
      /\ index_territory st t
         = mkLocals (dict_set (levels st) (Id t) 0) (children st)).
Proof.
  unfold index_territory.
  destruct (ParentTerritory2Id t) as [p|]; [|right; auto].
  destruct (truthy (Some p)) eqn:E; [left; eauto | right; auto].
Qed.

Lemma is_child_child_ids (ts : list territory) (p c : string) :
  is_child ts p c <-> In c (child_ids ts p).
Proof.
  unfold is_child, child_ids, has_parent. rewrite in_map_iff. split.
  - intros (t & Hin & Hid & Hp & Ht). exists t. split; [assumption|].
    apply filter_In. split; [assumption|].
    rewrite Hp, String.eqb_refl. exact Ht.
  - intros (t & Hid & Hf). apply filter_In in Hf. destruct Hf as [Hin Hf].
    exists t. destruct (ParentTerritory2Id t) as [q|]; [|discriminate].
    apply andb_true_iff in Hf. destruct Hf as [Hq Ht].
    apply String.eqb_eq in Hq. subst q. auto.
Qed.

Lemma has_parent_step (t : territory) (p q : string) :
  ParentTerritory2Id t = Some q -> truthy (Some q) = true ->
  has_parent p t = String.eqb q p.
Proof.
  intros Hp Ht. unfold has_parent. rewrite Hp, Ht. apply andb_true_r.
Qed.

Lemma has_parent_root (t : territory) (p : string) :
  truthy (ParentTerritory2Id t) = false -> has_parent p t = false.
Proof.
  unfold has_parent. destruct (ParentTerritory2Id t); [|reflexivity].
  intros ->. apply andb_false_r.
Qed.

Lemma index_children (ts : list territory) (st : locals) (p : string) :
  children_of (children (fold_left index_territory ts st)) p
  = children_of (children st) p ++ child_ids ts p.
Proof.
  revert st. induction ts as [|t ts IH]; intros st; simpl.
  - unfold child_ids. simpl. now rewrite app_nil_r.
  - rewrite IH. unfold child_ids. simpl.
    destruct (index_territory_cases st t) as [(Ht & q & Hq & ->)|(Ht & ->)]; simpl.
    + rewrite children_of_append. rewrite Hq in Ht.
      rewrite (has_parent_step t p q Hq Ht).
      destruct (String.eqb q p); simpl; [now rewrite <- app_assoc | reflexivity].
    + now rewrite (has_parent_root t p Ht).
Qed.

Lemma index_levels_keep (ts : list territory) (st : locals) (x : string) :
  dict_get (levels st) x = Some 0 ->
  dict_get (levels (fold_left index_territory ts st)) x = Some 0.
Proof.
  revert st. induction ts as [|t ts IH]; intros st Hx; simpl; [assumption|].
  apply IH.
  destruct (index_territory_cases st t) as [(Ht & q & Hq & ->)|(Ht & ->)]; simpl.
  - assumption.
  - rewrite dict_get_set. now destruct (String.eqb (Id t) x).
Qed.

Lemma index_levels_root (ts : list territory) (st : locals) (x : string) :
  is_root ts x ->
  dict_get (levels (fold_left index_territory ts st)) x = Some 0.
Proof.
  revert st. induction ts as [|t ts IH]; intros st (r & Hin & Hid & Hr).
  - contradiction.
  - simpl. destruct Hin as [->|Hin].
    + apply index_levels_keep.
      destruct (index_territory_cases st r) as [(Ht & _)|(_ & ->)]; [congruence|].
      simpl. subst x. apply dict_get_set_eq.
    + apply IH. exists r. auto.
Qed.

Lemma index_levels_sound (ts : list territory) (st : locals) (x : string) (d : nat) :
  dict_get (levels (fold_left index_territory ts st)) x = Some d ->
  dict_get (levels st) x = Some d \/ (d = 0 /\ is_root ts x).
Proof.
  revert st. induction ts as [|t ts IH]; intros st Hx; simpl in Hx; [auto|].
  destruct (IH _ Hx) as [H|[Hd (r & Hin & Hid & Hr)]].
  - destruct (index_territory_cases st t) as [(Ht & q & Hq & E)|(Ht & E)];
      rewrite E in H; simpl in H; [auto|].
    rewrite dict_get_set in H. destruct (String.eqb_spec (Id t) x) as [Heq|]; [|auto].
    right. inversion H; subst d. split; [reflexivity|].
    exists t. simpl. auto.
  - right. split; [assumption|]. exists r. simpl. auto.
Qed.

Lemma initial_levels (ts : list territory) (x : string) :
  (is_root ts x -> dict_get (levels (index_territories ts)) x = Some 0)
  /\ (forall d, dict_get (levels (index_territories ts)) x = Some d ->
        d = 0 /\ is_root ts x).
Proof.
  split.
  - apply index_levels_root.
  - intros d Hd. apply index_levels_sound in Hd.
    destruct Hd as [H|H]; [discriminate | exact H].
Qed.

Lemma initial_children (ts : list territory) (p : string) :
  children_of (children (index_territories ts)) p = child_ids ts p.
Proof. unfold index_territories. now rewrite index_children. Qed.

(** ** assign_levels and its view without the children store *)

Lemma assign_levels_simple (ch : string -> list string) (fuel : nat) :
  forall node level st lv, related ch st lv ->
    match assign_levels fuel node level st with
    | Some st' => exists lv', assign_simple ch fuel node level lv = Some lv'
                              /\ related ch st' lv'
    | None => assign_simple ch fuel node level lv = None
    end.
Proof.
  induction fuel as [|fuel IH]; intros node level st lv [Hlv Hch]; simpl; [reflexivity|].
  destruct (defaultdict_getitem (children st) node) as [cs ch1] eqn:E.
  pose proof (children_of_getitem (children st) node) as Hget. rewrite E in Hget.
  simpl in Hget. destruct (Hget node) as [Hcs _].
  rewrite <- Hch, <- Hcs.
  apply (for_each_rel (related ch)).
  - intros child s t _ [Hs Hc]. apply IH. split; simpl; [now rewrite Hs | exact Hc].
  - split; simpl; [assumption|]. intros k. destruct (Hget k) as [_ ->]. apply Hch.
Qed.

Lemma determine_levels_simple (fuel : nat) (ts : list territory) :
  determine_levels fuel ts
  = for_each (fun node lv => assign_simple (child_ids ts) fuel node 0 lv)
      (dict_keys (levels (index_territories ts)))
      (levels (index_territories ts)).
Proof.
  unfold determine_levels.
  pose proof (for_each_rel (related (child_ids ts))
    (fun node st' => assign_levels fuel node 0 st')
    (fun node lv => assign_simple (child_ids ts) fuel node 0 lv)
    (dict_keys (levels (index_territories ts)))) as H.
  specialize (H (fun x s t _ HR => assign_levels_simple _ fuel x 0 s t HR)
                (index_territories ts) (levels (index_territories ts))).
  assert (HR : related (child_ids ts) (index_territories ts)
                 (levels (index_territories ts))).
  { split; [reflexivity | apply initial_children]. }
  specialize (H HR).
  destruct (for_each _ _ (index_territories ts)) as [st'|].
  - destruct H as [lv' [-> [Hl _]]]. now rewrite Hl.
  - now rewrite H.
Qed.

(** ** Chains of parent links *)

Lemma chain_suffix (ts : list territory) (l1 l2 : list string) (m n : string) :
  chain ts (l1 ++ m :: l2) n -> chain ts l2 m.
Proof.
  revert n. induction l1 as [|a l1 IH]; simpl; intros n H; inversion H; subst.
  - assumption.
  - eapply IH; eassumption.
Qed.

Lemma chain_ids (ts : list territory) (path : list string) (x : string) :
  chain ts path x -> incl (x :: path) (map Id ts).
Proof.
  induction 1 as [r (t & Hin & Hid & _)|path p c _ IH (t & Hin & Hid & _)];
    intros y [<-|Hy].
  - subst r. now apply in_map.
  - contradiction.
  - subst c. now apply in_map.
  - now apply IH.
Qed.

Lemma desc_child_r (ts : list territory) (r p c : string) :
  desc ts r p -> is_child ts p c -> desc ts r c.
Proof.
  induction 1; intros Hc.
  - eapply desc_step; [eassumption|]. now apply desc_child.
  - eapply desc_step; [eassumption|]. auto.
Qed.

Lemma chain_desc (ts : list territory) (path : list string) (x : string) :
  chain ts path x ->
  is_root ts x \/ exists r, is_root ts r /\ desc ts r x.
Proof.
  induction 1 as [r Hr|path p c _ IH Hc]; [now left|].
  right. destruct IH as [Hp|(r & Hr & Hd)].
  - exists p. split; [assumption|]. now apply desc_child.
  - exists r. split; [assumption|]. eapply desc_child_r; eassumption.
Qed.

Section UniqueIds.
Variable ts : list territory.
Hypothesis Huniq : unique_ids ts.

Lemma unique_record (t1 t2 : territory) :
  In t1 ts -> In t2 ts -> Id t1 = Id t2 -> t1 = t2.
Proof.
  unfold unique_ids in Huniq. clear - Huniq.
  induction ts as [|t l IH]; simpl; [contradiction|].
  inversion Huniq as [|? ? Hnot Hnd]; subst.
  intros [->|H1] [->|H2] Heq; auto.
  - exfalso. apply Hnot. rewrite Heq. now apply in_map.
  - exfalso. apply Hnot. rewrite <- Heq. now apply in_map.
Qed.

Lemma root_not_child (p x : string) : is_root ts x -> is_child ts p x -> False.
Proof.
  intros (t1 & H1 & E1 & R1) (t2 & H2 & E2 & P2 & T2).
  assert (t1 = t2) by (apply unique_record; congruence).
  subst t2. congruence.
Qed.

Lemma child_parent_unique (p q c : string) :
  is_child ts p c -> is_child ts q c -> p = q.
Proof.
  intros (t1 & H1 & E1 & P1 & _) (t2 & H2 & E2 & P2 & _).
  assert (t1 = t2) by (apply unique_record; congruence).
  subst t2. congruence.
Qed.

Lemma chain_functional (p1 p2 : list string) (x : string) :
  chain ts p1 x -> chain ts p2 x -> p1 = p2.
Proof.
  intros H1. revert p2.
  induction H1 as [r Hr|path p c _ IH Hc]; intros p2 H2; inversion H2; subst.
  - reflexivity.
  - exfalso. eapply root_not_child; eassumption.
  - exfalso. eapply root_not_child; eassumption.
  - assert (p = p0) by (eapply child_parent_unique; eassumption).
    subst p0. f_equal. auto.
Qed.

Lemma chain_fresh (path : list string) (x : string) :
  chain ts path x -> ~ In x path.
Proof.
  intros Hc Hin. apply in_split in Hin. destruct Hin as (l1 & l2 & E).
  assert (Hs : chain ts l2 x) by (subst path; eapply chain_suffix; eassumption).
  pose proof (chain_functional _ _ _ Hc Hs) as Heq.
  apply (f_equal (@length string)) in Heq. subst path.
  rewrite length_app in Heq. simpl in Heq. lia.
Qed.

Lemma chain_NoDup (path : list string) (x : string) :
  chain ts path x -> NoDup (x :: path).
Proof.
  intros Hc. pose proof (chain_fresh _ _ Hc) as Hfresh.
  induction Hc as [r Hr|path p c Hp IH Hc'].
  - constructor; [assumption | constructor].
  - constructor; [assumption|]. apply IH. now apply chain_fresh.
Qed.

Lemma chain_length (path : list string) (x : string) :
  chain ts path x -> length path < length ts.
Proof.
  intros Hc.
  pose proof (NoDup_incl_length (chain_NoDup _ _ Hc) (chain_ids _ _ _ Hc)) as H.
  rewrite length_map in H. simpl in H. lia.
Qed.
End UniqueIds.

(** ** The traversal *)

Lemma assign_simple_S (ch : string -> list string) (fuel : nat) (node : string)
    (level : nat) (lv : dict nat) :
  assign_simple ch (S fuel) node level lv
  = for_each
      (fun child lv' =>
         assign_simple ch fuel child (level + 1) (dict_set lv' child (level + 1)))
      (ch node) lv.
Proof. reflexivity. Qed.

Lemma assign_simple_mono (ch : string -> list string) (fuel : nat) :
  forall node level lv lv',
    assign_simple ch fuel node level lv = Some lv' ->
    assign_simple ch (S fuel) node level lv = Some lv'.
Proof.
  induction fuel as [|fuel IH]; intros node level lv lv' H; [discriminate|].
  rewrite assign_simple_S in *.
  revert H. apply for_each_mono. intros child s s' _. apply IH.
Qed.

Lemma assign_simple_le (ch : string -> list string) (fuel fuel' : nat) :
  fuel <= fuel' ->
  forall node level lv lv',
    assign_simple ch fuel node level lv = Some lv' ->
    assign_simple ch fuel' node level lv = Some lv'.
Proof.
  induction 1; intros; [assumption|]. apply assign_simple_mono. auto.
Qed.

(** Entries are only added or overwritten, never removed. *)
Lemma assign_simple_keeps (ch : string -> list string) (fuel : nat) (x : string) :
  forall node level lv lv',
    dict_get lv x <> None ->
    assign_simple ch fuel node level lv = Some lv' ->
    dict_get lv' x <> None.
Proof.
  induction fuel as [|fuel IH]; intros node level lv lv' Hx H; [discriminate|].
  rewrite assign_simple_S in H.
  revert Hx H. apply (for_each_inv (fun s => dict_get s x <> None)).
  intros child s s' _ Hs. apply IH. now apply dict_set_keeps.
Qed.

Section Traversal.
Variable ts : list territory.

(** Every level written is the length of a chain from a root. *)
Lemma assign_simple_sound (fuel : nat) :
  forall node level path lv lv',
    chain ts path node -> length path = level -> sound ts lv ->
    assign_simple (child_ids ts) fuel node level lv = Some lv' ->
    sound ts lv'.
Proof.
  induction fuel as [|fuel IH]; intros node level path lv lv' Hc Hlen Hs H;
    [discriminate|].
  rewrite assign_simple_S in H.
  revert Hs H. apply (for_each_inv (sound ts)). intros child s s' Hin Hs.
  apply (IH child (level + 1) (node :: path)).
  - apply chain_step; [assumption|]. now apply is_child_child_ids.
  - simpl. lia.
  - intros x d. rewrite dict_get_set.
    destruct (String.eqb_spec child x) as [->|]; [|apply Hs].
    intros E. inversion E; subst d. exists (node :: path). split.
    + apply chain_step; [assumption|]. now apply is_child_child_ids.
    + simpl. lia.
Qed.

(** After [assign_levels(node, _)] everything below [node] has a level. *)
Lemma assign_simple_complete (fuel : nat) :
  forall node level lv lv',
    assign_simple (child_ids ts) fuel node level lv = Some lv' ->
    forall x, desc ts node x -> dict_get lv' x <> None.
Proof.
  induction fuel as [|fuel IH]; intros node level lv lv' H x Hd; [discriminate|].
  rewrite assign_simple_S in H.
  pose (Q := fun (c : string) (s : dict nat) =>
               dict_get s c <> None
               /\ forall y, desc ts c y -> dict_get s y <> None).
  assert (HQ : forall c, In c (child_ids ts node) -> Q c lv').
  { apply (for_each_all Q) with (3 := H).
    - intros c y s s' [Hc Hbelow] Hrun. split.
      + eapply assign_simple_keeps; [|exact Hrun]. now apply dict_set_keeps.
      + intros z Hz. eapply assign_simple_keeps; [|exact Hrun].
        apply dict_set_keeps. auto.
    - intros c s s' _ Hrun. split.
      + eapply assign_simple_keeps; [|exact Hrun].
        rewrite dict_get_set_eq. discriminate.
      + intros z Hz. eapply IH; eassumption. }
  inversion Hd as [p c Hc|p c y Hc Hy]; subst.
  - apply is_child_child_ids in Hc. exact (proj1 (HQ x Hc)).
  - apply is_child_child_ids in Hc. exact (proj2 (HQ c Hc) x Hy).
Qed.

Hypothesis Huniq : unique_ids ts.

(** With unique ids the recursion is no deeper than the number of records. *)
Lemma assign_simple_total (fuel : nat) :
  forall node level path lv,
    chain ts path node -> length ts <= length path + fuel ->
    exists lv', assign_simple (child_ids ts) fuel node level lv = Some lv'.
Proof.
  induction fuel as [|fuel IH]; intros node level path lv Hc Hlen.
  - pose proof (chain_length ts Huniq _ _ Hc). lia.
  - rewrite assign_simple_S. apply for_each_total. intros child s Hin.
    apply (IH child (level + 1) (node :: path)).
    + apply chain_step; [assumption|]. now apply is_child_child_ids.
    + simpl. lia.
Qed.
End Traversal.

(** ** determine_levels as a whole *)

Lemma initial_nodes_roots (ts : list territory) (r : string) :
  In r (dict_keys (levels (index_territories ts))) <-> is_root ts r.
Proof.
  rewrite dict_keys_get. destruct (initial_levels ts r) as [H1 H2]. split.
  - destruct (dict_get _ r) as [d|] eqn:E; [|congruence].
    intros _. now destruct (H2 d eq_refl).
  - intros Hr. rewrite (H1 Hr). discriminate.
Qed.

Lemma determine_levels_sound (fuel : nat) (ts : list territory) (lv : dict nat) :
  determine_levels fuel ts = Some lv -> sound ts lv.
Proof.
  rewrite determine_levels_simple.
  apply (for_each_inv (sound ts)).
  - intros r s s' Hr Hs. apply (assign_simple_sound ts fuel r 0 []); auto.
    constructor. now apply initial_nodes_roots.
  - intros x d Hd. destruct (initial_levels ts x) as [_ H]. destruct (H d Hd) as [-> Hr].
    exists []. split; [now constructor | reflexivity].
Qed.

Lemma determine_levels_complete (fuel : nat) (ts : list territory) (lv : dict nat) :
  determine_levels fuel ts = Some lv ->
  forall path x, chain ts path x -> dict_get lv x <> None.
Proof.
  rewrite determine_levels_simple. intros H path x Hc.
  destruct (chain_desc _ _ _ Hc) as [Hr|(r & Hr & Hd)].
  - revert H. apply (for_each_inv (fun s => dict_get s x <> None)).
    + intros y s s' _ Hs. now apply assign_simple_keeps.
    + destruct (initial_levels ts x) as [E _]. rewrite (E Hr). discriminate.
  - apply initial_nodes_roots in Hr.
    apply (for_each_all (fun r s => forall y, desc ts r y -> dict_get s y <> None))
      with (3 := H) (x := r); auto.
    + intros r' y s s' Hq Hrun z Hz. eapply assign_simple_keeps; [|exact Hrun]. auto.
    + intros r' s s' _ Hrun z Hz. eapply assign_simple_complete; eassumption.
Qed.

Lemma determine_levels_le (fuel fuel' : nat) (ts : list territory) (lv : dict nat) :
  fuel <= fuel' ->
  determine_levels fuel ts = Some lv -> determine_levels fuel' ts = Some lv.
Proof.
  intros Hle. rewrite !determine_levels_simple. apply for_each_mono.
  intros r s s' _. now apply assign_simple_le.
Qed.

Lemma determine_levels_result_unique (fuel0 fuel : nat) (ts : list territory)
    (lv0 lv : dict nat) :
  determine_levels fuel0 ts = Some lv0 -> determine_levels fuel ts = Some lv ->
  lv = lv0.
Proof.
  intros H0 H. destruct (Nat.le_ge_cases fuel fuel0) as [Hle|Hle].
  - apply (determine_levels_le _ _ _ _ Hle) in H. congruence.
  - apply (determine_levels_le _ _ _ _ Hle) in H0. congruence.
Qed.

Lemma determine_levels_total (ts : list territory) :
  unique_ids ts ->
  exists lv, forall fuel, length ts <= fuel -> determine_levels fuel ts = Some lv.
Proof.
  intros Huniq.
  destruct (for_each_total
              (fun node lv => assign_simple (child_ids ts) (length ts) node 0 lv)
              (dict_keys (levels (index_territories ts)))) with
    (s := levels (index_territories ts)) as [lv Hlv].
  - intros r s Hr. apply (assign_simple_total ts Huniq (length ts) r 0 []).
    + constructor. now apply initial_nodes_roots.
    + simpl. lia.
  - exists lv. intros fuel Hle. apply (determine_levels_le (length ts)); [assumption|].
    now rewrite determine_levels_simple.
Qed.

Lemma determine_levels_exact (fuel : nat) (ts : list territory) (lv : dict nat) :
  unique_ids ts -> determine_levels fuel ts = Some lv ->
  forall x d, dict_get lv x = Some d <->
              exists path, chain ts path x /\ length path = d.
Proof.
  intros Huniq H x d. split.
  - apply (determine_levels_sound _ _ _ H).
  - intros (path & Hc & Hlen).
    pose proof (determine_levels_complete _ _ _ H _ _ Hc) as Hx.
    destruct (dict_get lv x) as [d'|] eqn:E; [|congruence].
    destruct (determine_levels_sound _ _ _ H _ _ E) as (path' & Hc' & Hlen').
    rewrite (chain_functional ts Huniq _ _ _ Hc' Hc) in Hlen'. congruence.
Qed.

(** ** create_graph *)

Lemma colors_getitem (level : nat) :
  nth_error colors (level mod length colors) = Some (level_color level).
Proof.
  unfold level_color. apply nth_error_nth'.
  apply Nat.mod_upper_bound. discriminate.
Qed.

Lemma add_stmts_app (l1 l2 : list stmt) (g : Digraph) :
  add_stmts l2 (add_stmts l1 g) = add_stmts (l1 ++ l2) g.
Proof. unfold add_stmts. simpl. now rewrite app_assoc. Qed.

Lemma add_territory_run (t : territory) (h : heap) :
  add_territory t h
  = if unleveled (h_levels h) t
    then (Raise (KeyError (Id t)),
          set_dot (add_stmts [NodeStmt (Id t) (Name t)] (h_dot h)) h)
    else (Ok tt, set_dot (add_stmts (territory_stmts (h_levels h) t) (h_dot h)) h).
Proof.
  unfold add_territory, unleveled, territory_stmts, bind, dot_node.
  destruct (ParentTerritory2Id t) as [p|]; [|reflexivity].
  destruct (truthy (Some p)); [|reflexivity].
  unfold levels_getitem, list_getitem, dot_edge.
  cbn [h_levels h_dot set_dot andb].
  destruct (dict_get (h_levels h) (Id t)) as [level|]; [|reflexivity].
  rewrite colors_getitem. unfold set_dot, add_stmts, add_stmt.
  cbn [h_territories h_levels h_dot h_files comment format graph_attr body].
  now rewrite <- app_assoc.
Qed.

Lemma loop_run (ts : list territory) (h : heap) :
  for_each_m add_territory ts h
  = (fst (loop_trace (h_levels h) ts),
     set_dot (add_stmts (snd (loop_trace (h_levels h) ts)) (h_dot h)) h).
Proof.
  revert h. induction ts as [|t ts IH]; intros h; simpl.
  - unfold ret, set_dot, add_stmts. rewrite app_nil_r. now destruct h as [? ? []].
  - unfold bind. rewrite add_territory_run.
    destruct (unleveled (h_levels h) t); [reflexivity|].
    rewrite IH. simpl.
    destruct (loop_trace (h_levels h) ts) as [r l]. simpl.
    now rewrite add_stmts_app.
Qed.

(** [create_graph] in one step: the header, the loop, then the rendering. *)
Lemma create_graph_run (fmt size : string) (h : heap) :
  create_graph fmt size h
  = let '(r, l) := loop_trace (h_levels h) (h_territories h) in
    let g := add_stmts l (graph_header fmt size) in
    match r with
    | Ok _ =>
        (Ok ("/tmp/territories" ++ "." ++ fmt)%string,
         set_files
           (dict_set (dict_set (h_files h) "/tmp/territories" (DotSource g))
              ("/tmp/territories" ++ "." ++ fmt)%string (Rendered fmt g))
           (set_dot g h))
    | Raise e => (Raise e, set_dot g h)
    end.
Proof.
  unfold create_graph, bind at 1 2 3 4, new_Digraph, dot_attr_graph, dot_attr,
    get_territories.
  cbn [fst snd h_territories h_levels h_dot h_files set_dot].
  unfold bind at 1. rewrite loop_run.
  cbn [fst snd h_territories h_levels h_dot h_files set_dot].
  destruct (loop_trace (h_levels h) (h_territories h)) as [[[]|e] l];
    cbn [fst snd]; reflexivity.
Qed.

Lemma unleveled_false (lv : dict nat) (t : territory) :
  unleveled lv t = false <->
  (truthy (ParentTerritory2Id t) = true -> dict_get lv (Id t) <> None).
Proof.
  unfold unleveled. destruct (truthy (ParentTerritory2Id t)); simpl.
  - destruct (dict_get lv (Id t)); split; try congruence.
    intros H. now exfalso; apply H.
  - split; [discriminate | reflexivity].
Qed.

Lemma loop_trace_ok (lv : dict nat) (ts : list territory) :
  leveled lv ts ->
  loop_trace lv ts = (Ok tt, flat_map (territory_stmts lv) ts).
Proof.
  induction ts as [|t ts IH]; intros Hl; simpl; [reflexivity|].
  assert (Ht : unleveled lv t = false).
  { apply unleveled_false. apply Hl. now left. }
  rewrite Ht, IH; [reflexivity|].
  intros t' Hin. apply Hl. now right.
Qed.

Lemma loop_trace_fail (lv : dict nat) (ts : list territory) :
  (exists t, In t ts /\ unleveled lv t = true) ->
  exists l1 t0 l2,
    ts = l1 ++ t0 :: l2
    /\ leveled lv l1
    /\ unleveled lv t0 = true
    /\ loop_trace lv ts
       = (Raise (KeyError (Id t0)),
          flat_map (territory_stmts lv) l1 ++ [NodeStmt (Id t0) (Name t0)]).
Proof.
  induction ts as [|t ts IH]; intros (t1 & Hin & Hu); [contradiction|].
  simpl. destruct (unleveled lv t) eqn:E.
  - exists [], t, ts. split; [reflexivity|]. split; [intros t' []|].
    split; [assumption | reflexivity].
  - destruct Hin as [->|Hin]; [congruence|].
    destruct IH as (l1 & t0 & l2 & Hts & Hl1 & U0 & R0); [eauto|].
    exists (t :: l1), t0, l2. rewrite R0, Hts.
    split; [reflexivity|]. split; [|split; [assumption|]].
    + intros t' [<-|Hin'].
      * now apply unleveled_false.
      * now apply Hl1.
    + simpl. now rewrite <- app_assoc.
Qed.

Lemma edges_app (l1 l2 : list stmt) : edges (l1 ++ l2) = edges l1 ++ edges l2.
Proof. unfold edges. apply flat_map_app. Qed.

(** Whatever the outcome, an edge in the trace belongs to a record that has a
    parent, and its colour is the one of the level of its head. *)
Lemma loop_trace_edges (lv : dict nat) (ts : list territory)
    (tl hd c : string) :
  In (tl, hd, c) (edges (snd (loop_trace lv ts))) ->
  exists t L, In t ts /\ ParentTerritory2Id t = Some tl
              /\ truthy (Some tl) = true /\ Id t = hd
              /\ dict_get lv hd = Some L /\ c = level_color L.
Proof.
  induction ts as [|t ts IH]; simpl; [intros []|].
  destruct (unleveled lv t); simpl; [intros []|].
  destruct (loop_trace lv ts) as [r l]. simpl in *.
  rewrite edges_app, in_app_iff. intros [H|H].
  - exists t. unfold territory_stmts in H.
    destruct (ParentTerritory2Id t) as [p|]; [|simpl in H; contradiction].
    destruct (truthy (Some p)) eqn:Ep; [|simpl in H; contradiction].
    destruct (dict_get lv (Id t)) as [L|] eqn:EL; [|simpl in H; contradiction].
    simpl in H. destruct H as [H|[]]. inversion H; subst.
    exists L. auto 10.
  - destruct (IH H) as (t' & L & Hin & Hrest). exists t', L. auto.
Qed.

Lemma territory_edges (lv : dict nat) (t : territory) :
  edges (territory_stmts lv t)
  = if has_parent_ref t
    then match dict_get lv (Id t) with
         | Some L => [(parent_name t, Id t, level_color L)]
         | None => []
         end
    else [].
Proof.
  unfold territory_stmts, has_parent_ref, parent_name.
  destruct (ParentTerritory2Id t) as [p|]; [|reflexivity].
  destruct (truthy (Some p)); [|reflexivity].
  now destruct (dict_get lv (Id t)).
Qed.

(** When every record that has a parent has a level, the edges are, in input
    order, one per such record, from its parent to its id, in the colour of
    its level. *)
Lemma edges_one_per_child (lv : dict nat) (ts : list territory) :
  leveled lv ts ->
  Forall2
    (fun t e => exists L, dict_get lv (Id t) = Some L
                          /\ e = (parent_name t, Id t, level_color L))
    (filter has_parent_ref ts)
    (edges (flat_map (territory_stmts lv) ts)).
Proof.
  induction ts as [|t ts IH]; intros Hl; [constructor|].
  cbn [flat_map filter].
  assert (IH' : leveled lv ts) by (intros t' Hin; apply Hl; now right).
  specialize (IH IH'). rewrite edges_app, territory_edges.
  pose proof (Hl t (or_introl eq_refl)) as Ht. fold (has_parent_ref t) in Ht.
  destruct (has_parent_ref t); [|exact IH].
  destruct (dict_get lv (Id t)) as [L|] eqn:EL; [|now exfalso; apply Ht].
  simpl. constructor; [eauto | exact IH].
Qed.

(** * The specification, statement by statement *)

Lemma truthy_Some (p : string) : truthy (Some p) = true <-> p <> "".
Proof. unfold truthy. destruct p; split; congruence. Qed.

Lemma child_of_record (ts : list territory) (t : territory) (p : string) :
  In t ts -> ParentTerritory2Id t = Some p -> p <> "" -> is_child ts p (Id t).
Proof. intros Hin Hp Hne. exists t. rewrite truthy_Some. auto. Qed.

Lemma unique_ids_mixed : unique_ids mixed.
Proof.
  unfold unique_ids, mixed. simpl.
  repeat (constructor; [simpl; intuition discriminate|]). constructor.
Defined.

Lemma assign_levels_dup_self (fuel : nat) :
  forall level lv, assign_levels fuel "A" level (mkLocals lv [("A", ["A"])]) = None.
Proof.
  induction fuel as [|fuel IH]; intros level lv; [reflexivity|].
  cbn. now rewrite IH.
Qed.

(** C1, as stated, fails: with the id [A] once as a root and once as its own
    child, [assign_levels] re-enters [A] without end, so no fuel is enough
    for [determine_levels] to return. *)
Lemma determine_levels_dup_self_diverges :
  ~ exists fuel lv, determine_levels fuel dup_self = Some lv.
Proof.
  intros (fuel & lv & H). unfold determine_levels in H.
  change (index_territories dup_self)
    with (mkLocals [("A", 0)] [("A", ["A"])]) in H.
  cbn [dict_keys levels map fst for_each] in H.
  now rewrite assign_levels_dup_self in H.
Qed.

Lemma for_each_ran {A S : Type} (body : A -> S -> option S) (l : list A) :
  forall s s', for_each body l s = Some s' ->
    forall x, In x l -> exists s1 s2, body x s1 = Some s2.
Proof.
  induction l as [|y l IH]; simpl; intros s s' Hrun x Hx; [contradiction|].
  destruct (body y s) as [s1|] eqn:E; [|discriminate].
  destruct Hx as [->|Hx]; [eauto|]. eapply IH; eassumption.
Qed.

(** When no chain from a root has [D] links or more, a call at the end of a
    chain returns as soon as the fuel covers what is left of [D]. *)
Lemma assign_simple_bounded (ts : list territory) (D : nat) :
  (forall path x, chain ts path x -> length path < D) ->
  forall fuel node level path lv,
    chain ts path node -> D <= length path + fuel ->
    exists lv', assign_simple (child_ids ts) fuel node level lv = Some lv'.
Proof.
  intros Hbound. induction fuel as [|fuel IH]; intros node level path lv Hc Hlen.
  - pose proof (Hbound _ _ Hc). lia.
  - rewrite assign_simple_S. apply for_each_total. intros child s Hin.
    apply (IH child (level + 1) (node :: path)).
    + apply chain_step; [assumption|]. now apply is_child_child_ids.
    + simpl. lia.
Qed.

(** A call that returns has gone down every chain below its node. *)
Lemma assign_simple_depth (ts : list territory) (fuel : nat) :
  forall node level lv lv',
    assign_simple (child_ids ts) fuel node level lv = Some lv' ->
    0 < fuel
    /\ forall l path x, chain ts (l ++ node :: path) x -> S (length l) < fuel.
Proof.
  induction fuel as [|fuel IH]; intros node level lv lv' Hrun; [discriminate|].
  split; [lia|]. rewrite assign_simple_S in Hrun.
  assert (Hcall : forall c, is_child ts node c ->
            exists level' s1 s2,
              assign_simple (child_ids ts) fuel c level' s1 = Some s2).
  { intros c Hc. apply is_child_child_ids in Hc.
    destruct (for_each_ran _ _ _ _ Hrun c Hc) as (s1 & s2 & H). eauto. }
  intros l path x Hc. destruct l as [|a l] using rev_ind.
  - simpl in Hc. inversion Hc as [|? ? ? _ Hchild]; subst.
    destruct (Hcall x Hchild) as (level' & s1 & s2 & Hsub).
    destruct (IH _ _ _ _ Hsub) as [Hpos _]. simpl. lia.
  - rewrite <- app_assoc in Hc. simpl in Hc.
    pose proof (chain_suffix _ _ _ _ _ Hc) as Ha.
    inversion Ha as [|? ? ? _ Hchild]; subst.
    destruct (Hcall a Hchild) as (level' & s1 & s2 & Hsub).
    destruct (IH _ _ _ _ Hsub) as [_ Hdeep].
    specialize (Hdeep l (node :: path) x Hc).
    rewrite length_app. simpl. lia.
Qed.

Lemma determine_levels_returns_iff (fuel : nat) (ts : list territory) :
  (exists lv, determine_levels fuel ts = Some lv)
  <-> (forall path x, chain ts path x -> length path < fuel).
Proof.
  rewrite determine_levels_simple. split.
  - intros [lv Hrun].
    assert (Hroot : forall r, is_root ts r ->
              exists s1 s2, assign_simple (child_ids ts) fuel r 0 s1 = Some s2).
    { intros r Hr. apply initial_nodes_roots in Hr.
      exact (for_each_ran _ _ _ _ Hrun r Hr). }
    intros path x Hc. destruct path as [|r path] using rev_ind.
    + inversion Hc; subst. destruct (Hroot x) as (s1 & s2 & Hsub); [assumption|].
      destruct (assign_simple_depth _ _ _ _ _ _ Hsub) as [Hpos _]. simpl. lia.
    + pose proof (chain_suffix _ _ _ _ _ Hc) as Hr. inversion Hr; subst.
      destruct (Hroot r) as (s1 & s2 & Hsub); [assumption|].
      destruct (assign_simple_depth _ _ _ _ _ _ Hsub) as [_ Hdeep].
      specialize (Hdeep path [] x Hc). rewrite length_app. simpl. lia.
  - intros Hbound. apply for_each_total. intros r s Hr.
    apply (assign_simple_bounded ts fuel Hbound fuel r 0 []).
    + constructor. now apply initial_nodes_roots.
    + simpl. lia.
Qed.

(** C1, amended: [determine_levels] returns exactly when the recursion depth
    available exceeds the number of parent links of every chain that leads
    from a reached id up to its root, on every input, duplicate ids included;
    more depth never changes the map, and an id is in the map exactly when it
    is reached from a root.  With pairwise distinct ids, self-parent records,
    cycles of any length and dangling parents included, every chain has
    fewer links than there are records, so a depth of the number of records
    is always enough. *)
Theorem determine_levels_terminates (ts : list territory) :
  (forall fuel,
     (exists lv, determine_levels fuel ts = Some lv)
     <-> (forall path x, chain ts path x -> length path < fuel))
  /\ (forall fuel fuel' lv, fuel <= fuel' ->
        determine_levels fuel ts = Some lv -> determine_levels fuel' ts = Some lv)
  /\ (forall fuel lv, determine_levels fuel ts = Some lv ->
        forall x, dict_get lv x <> None <-> exists path, chain ts path x)
  /\ (unique_ids ts ->
      (forall path x, chain ts path x -> length path < length ts)
      /\ exists lv,
           forall fuel, length ts <= fuel -> determine_levels fuel ts = Some lv).
Proof.
  split; [intros fuel; apply determine_levels_returns_iff|].
  split; [intros fuel fuel' lv Hle; now apply determine_levels_le|]. split.
  - intros fuel lv Hrun x. split.
    + destruct (dict_get lv x) as [d|] eqn:E; [|congruence]. intros _.
      destruct (determine_levels_sound _ _ _ Hrun _ _ E) as (path & Hc & _). eauto.
    + intros (path & Hc). eapply determine_levels_complete; eassumption.
  - intros Huniq. split.
    + intros path x. apply (chain_length ts Huniq).
    + now apply determine_levels_total.
Qed.

Lemma determine_levels_terminates_witness :
  (forall path x, chain dup_two_parents path x -> length path < 3)
  /\ (forall path x, chain mixed path x -> length path < length mixed)
  /\ (exists lv,
        forall fuel, length mixed <= fuel -> determine_levels fuel mixed = Some lv).
Proof.
  split.
  - apply (proj1 (determine_levels_terminates dup_two_parents) 3).
    exists [("R", 0); ("M", 1); ("A", 1)]. reflexivity.
  - apply (proj2 (proj2 (proj2 (determine_levels_terminates mixed)))).
    exact unique_ids_mixed.
Defined.

(** C3, as stated, fails: with the id [A] once as a root and once as a child
    of the root [R], the entry 0 of [A] is overwritten when [R] is traversed,
    and the returned level map gives the root record [A] level 1. *)
Lemma root_level_overwritten :
  In (mkTerritory "A" "Root2" None) dup_root
  /\ (forall fuel, 2 <= fuel ->
        determine_levels fuel dup_root = Some [("R", 0); ("A", 1)])
  /\ ~ exists fuel lv, determine_levels fuel dup_root = Some lv
                       /\ dict_get lv "A" = Some 0.
Proof.
  assert (H2 : determine_levels 2 dup_root = Some [("R", 0); ("A", 1)])
    by reflexivity.
  split; [simpl; auto|]. split.
  - intros fuel Hle. now apply (determine_levels_le 2).
  - intros (fuel & lv & H & HA).
    rewrite (determine_levels_result_unique _ _ _ _ _ H2 H) in HA. discriminate.
Qed.

(** C3, amended: in an input whose ids are pairwise distinct, every record
    whose parent is null gets level 0 in the level map [determine_levels]
    returns. *)
Theorem roots_have_level_zero (ts : list territory) :
  unique_ids ts ->
  exists lv,
    (forall fuel, length ts <= fuel -> determine_levels fuel ts = Some lv)
    /\ (forall t, In t ts -> ParentTerritory2Id t = None ->
          dict_get lv (Id t) = Some 0).
Proof.
  intros Huniq. destruct (determine_levels_total ts Huniq) as [lv Hlv].
  exists lv. split; [assumption|]. intros t Hin Hp.
  apply (determine_levels_exact _ _ _ Huniq (Hlv _ (le_n _))).
  exists []. split; [|reflexivity]. constructor. exists t. rewrite Hp. auto.
Qed.

Lemma roots_have_level_zero_witness :
  exists lv,
    (forall fuel, length mixed <= fuel -> determine_levels fuel mixed = Some lv)
    /\ dict_get lv "A" = Some 0.
Proof.
  destruct (roots_have_level_zero mixed unique_ids_mixed) as (lv & Hrun & H).
  exists lv. split; [exact Hrun|].
  apply (H (mkTerritory "A" "Root" None)); [simpl; auto | reflexivity].
Defined.

(** C4, as stated, fails.  With the id [A] under [R] and under [M], [A] is
    visited from [M] (level 2) and then again from [R] (level 1): the record
    of [A] under [M] ends at level 1, as its parent [M].  And a record whose
    parent is the empty string is a root, at level 0, also when a record
    with the empty id has level 0. *)
Lemma child_level_not_parent_plus_one :
  (In (mkTerritory "A" "Last" (Some "M")) dup_two_parents
   /\ (forall fuel, 3 <= fuel ->
         determine_levels fuel dup_two_parents
         = Some [("R", 0); ("M", 1); ("A", 1)])
   /\ ~ exists fuel lv L, determine_levels fuel dup_two_parents = Some lv
                          /\ dict_get lv "M" = Some L
                          /\ dict_get lv "A" = Some (L + 1))
  /\ (In (mkTerritory "B" "Child" (Some "")) empty_id
      /\ (forall fuel, 1 <= fuel ->
            determine_levels fuel empty_id = Some [("", 0); ("B", 0)])
      /\ ~ exists fuel lv L, determine_levels fuel empty_id = Some lv
                             /\ dict_get lv "" = Some L
                             /\ dict_get lv "B" = Some (L + 1)).
Proof.
  assert (H3 : determine_levels 3 dup_two_parents
               = Some [("R", 0); ("M", 1); ("A", 1)]) by reflexivity.
  assert (H1 : determine_levels 1 empty_id = Some [("", 0); ("B", 0)])
    by reflexivity.
  split; (split; [simpl; auto|]); split.
  - intros fuel Hle. now apply (determine_levels_le 3).
  - intros (fuel & lv & L & H & HM & HA).
    rewrite (determine_levels_result_unique _ _ _ _ _ H3 H) in HM, HA.
    simpl in HM, HA. inversion HM; subst L. discriminate.
  - intros fuel Hle. now apply (determine_levels_le 1).
  - intros (fuel & lv & L & H & HM & HA).
    rewrite (determine_levels_result_unique _ _ _ _ _ H1 H) in HM, HA.
    simpl in HM, HA. inversion HM; subst L. discriminate.
Qed.

(** C4, amended: in an input whose ids are pairwise distinct, a record with
    a non-empty parent that has level [L] in the returned level map has level
    [L + 1] there. *)
Theorem child_level_is_parent_level_plus_one (ts : list territory) :
  unique_ids ts ->
  exists lv,
    (forall fuel, length ts <= fuel -> determine_levels fuel ts = Some lv)
    /\ (forall t p L, In t ts -> ParentTerritory2Id t = Some p -> p <> "" ->
          dict_get lv p = Some L -> dict_get lv (Id t) = Some (L + 1)).
Proof.
  intros Huniq. destruct (determine_levels_total ts Huniq) as [lv Hlv].
  exists lv. split; [assumption|]. intros t p L Hin Hp Hne HL.
  pose proof (determine_levels_exact _ _ _ Huniq (Hlv _ (le_n _))) as Hex.
  apply Hex in HL. destruct HL as (path & Hc & Hlen).
  apply Hex. exists (p :: path). split.
  - apply chain_step; [assumption|]. now apply child_of_record.
  - simpl. lia.
Qed.

Lemma child_level_is_parent_level_plus_one_witness :
  exists lv,
    (forall fuel, length mixed <= fuel -> determine_levels fuel mixed = Some lv)
    /\ dict_get lv "A" = Some 0 /\ dict_get lv "B" = Some 1.
Proof.
  destruct (child_level_is_parent_level_plus_one mixed unique_ids_mixed)
    as (lv & Hrun & H).
  assert (HA : dict_get lv "A" = Some 0).
  { pose proof (Hrun 7 (le_n 7)) as E. vm_compute in E. inversion E. reflexivity. }
  exists lv. split; [exact Hrun|]. split; [exact HA|].
  apply (H (mkTerritory "B" "Child" (Some "A")) "A" 0);
    [simpl; auto | reflexivity | discriminate | exact HA].
Defined.

Lemma chain_end_is_id (ts : list territory) (path : list string) (x : string) :
  chain ts path x -> In x (map Id ts).
Proof. intros Hc. apply (chain_ids _ _ _ Hc). now left. Qed.

(** C5, as stated, fails.  With the id [A] once as a root and once under the
    parent [Z] that is not in the input, the record under [Z] has a parent
    that is never reached, and its id is in the level map.  And a record
    whose parent is the empty string, which no record bears, is a root. *)
Lemma level_despite_unreached_parent :
  (In (mkTerritory "A" "Orphan" (Some "Z")) dup_dangling
   /\ (forall path, ~ chain dup_dangling path "Z")
   /\ (forall fuel, 1 <= fuel -> determine_levels fuel dup_dangling = Some [("A", 0)])
   /\ ~ exists fuel lv, determine_levels fuel dup_dangling = Some lv
                        /\ dict_get lv "A" = None)
  /\ (In (mkTerritory "G" "Empty" (Some "")) empty_parent
      /\ (forall path, ~ chain empty_parent path "")
      /\ (forall fuel, 1 <= fuel -> determine_levels fuel empty_parent = Some [("G", 0)])
      /\ ~ exists fuel lv, determine_levels fuel empty_parent = Some lv
                           /\ dict_get lv "G" = None).
Proof.
  assert (HA : determine_levels 1 dup_dangling = Some [("A", 0)]) by reflexivity.
  assert (HG : determine_levels 1 empty_parent = Some [("G", 0)]) by reflexivity.
  split; (split; [simpl; auto|]); (split; [|split]).
  - intros path Hc. apply chain_end_is_id in Hc. simpl in Hc.
    intuition discriminate.
  - intros fuel Hle. now apply (determine_levels_le 1).
  - intros (fuel & lv & H & Hnone).
    rewrite (determine_levels_result_unique _ _ _ _ _ HA H) in Hnone. discriminate.
  - intros path Hc. apply chain_end_is_id in Hc. simpl in Hc.
    intuition discriminate.
  - intros fuel Hle. now apply (determine_levels_le 1).
  - intros (fuel & lv & H & Hnone).
    rewrite (determine_levels_result_unique _ _ _ _ _ HG H) in Hnone. discriminate.
Qed.

(** C5, amended: in an input whose ids are pairwise distinct, a record with
    a non-empty parent that is never reached from a root (equivalently, that
    has no level) has no entry in the returned level map; and for the single
    record that cites itself as parent the level map is empty. *)
Theorem unreached_parent_means_no_level (ts : list territory) :
  unique_ids ts ->
  (exists lv,
     (forall fuel, length ts <= fuel -> determine_levels fuel ts = Some lv)
     /\ (forall t p, In t ts -> ParentTerritory2Id t = Some p -> p <> "" ->
           (forall path, ~ chain ts path p) -> dict_get lv (Id t) = None)
     /\ (forall t p, In t ts -> ParentTerritory2Id t = Some p -> p <> "" ->
           dict_get lv p = None -> dict_get lv (Id t) = None))
  /\ (forall fuel, determine_levels fuel self_parent = Some []).
Proof.
  intros Huniq. split; [|reflexivity].
  destruct (determine_levels_total ts Huniq) as [lv Hlv].
  exists lv. split; [assumption|].
  pose proof (Hlv (length ts) (le_n _)) as Hrun.
  assert (Hgen : forall t p, In t ts -> ParentTerritory2Id t = Some p -> p <> "" ->
                   (forall path, ~ chain ts path p) -> dict_get lv (Id t) = None).
  { intros t p Hin Hp Hne Hno.
    destruct (dict_get lv (Id t)) as [d|] eqn:E; [|reflexivity]. exfalso.
    destruct (determine_levels_sound _ _ _ Hrun _ _ E) as (path & Hc & _).
    pose proof (child_of_record ts t p Hin Hp Hne) as Hchild.
    inversion Hc as [r Hr|path' q c Hq Hqc]; subst.
    - eapply root_not_child; eassumption.
    - assert (q = p) by (eapply child_parent_unique; eassumption).
      subst q. eapply Hno; eassumption. }
  split; [exact Hgen|].
  intros t p Hin Hp Hne Hnone. apply (Hgen t p Hin Hp Hne).
  intros path Hc. exact (determine_levels_complete _ _ _ Hrun _ _ Hc Hnone).
Qed.

Lemma unreached_parent_means_no_level_witness :
  (exists lv,
     (forall fuel, length mixed <= fuel -> determine_levels fuel mixed = Some lv)
     /\ dict_get lv "Z" = None /\ dict_get lv "F" = None)
  /\ (forall fuel, determine_levels fuel self_parent = Some []).
Proof.
  destruct (unreached_parent_means_no_level mixed unique_ids_mixed)
    as ((lv & Hrun & _ & H) & Hself).
  split; [|exact Hself].
  assert (HZ : dict_get lv "Z" = None).
  { pose proof (Hrun 7 (le_n 7)) as E. vm_compute in E. inversion E. reflexivity. }
  exists lv. split; [exact Hrun|]. split; [exact HZ|].
  apply (H (mkTerritory "F" "Dangling" (Some "Z")) "Z");
    [simpl; auto 10 | reflexivity | discriminate | exact HZ].
Defined.



(** ** Statements on create_graph *)

Lemma create_graph_ok (fmt size : string) (h : heap) :
  leveled (h_levels h) (h_territories h) ->
  fst (create_graph fmt size h) = Ok ("/tmp/territories" ++ "." ++ fmt)%string
  /\ h_dot (snd (create_graph fmt size h))
     = add_stmts (flat_map (territory_stmts (h_levels h)) (h_territories h))
         (graph_header fmt size).
Proof.
  intros Hl. rewrite create_graph_run, (loop_trace_ok _ _ Hl). split; reflexivity.
Qed.

Lemma create_graph_edges (fmt size : string) (h : heap) (tl hd c : string) :
  In (tl, hd, c) (edges (body (h_dot (snd (create_graph fmt size h))))) ->
  exists t L, In t (h_territories h) /\ ParentTerritory2Id t = Some tl
              /\ truthy (Some tl) = true /\ Id t = hd
              /\ dict_get (h_levels h) hd = Some L /\ c = level_color L.
Proof.
  rewrite create_graph_run.
  pose proof (loop_trace_edges (h_levels h) (h_territories h) tl hd c) as H.
  destruct (loop_trace (h_levels h) (h_territories h)) as [[[]|e] l];
    cbn [snd h_dot set_dot set_files add_stmts body graph_header] in *;
    rewrite edges_app; simpl; exact H.
Qed.

(** C2, as stated, fails: for the self-parent record, whose id has no level,
    [create_graph] raises [KeyError] and the graph has no edge in the first
    colour (nor any other) from [A] to [A]. *)
Lemma create_graph_self_parent_raises :
  determine_levels 1 self_parent = Some []
  /\ fst (create_graph "png" "800,800" (call_heap self_parent []))
     = Raise (KeyError "A")
  /\ ~ In ("A", "A", "black")
         (edges (body (h_dot (snd (create_graph "png" "800,800"
                                     (call_heap self_parent [])))))).
Proof.
  split; [reflexivity|]. split; [reflexivity|]. vm_compute. tauto.
Qed.

(** C2, amended: when some record has a non-empty parent and its id has no
    entry in the level map, [create_graph] applies no fallback colour: at the
    first such record, after the statements of the records before it and the
    node of the record itself, [levels[territory['Id']]] raises [KeyError]
    on its id, and no file is rendered. *)
Theorem create_graph_raises_on_missing_level (fmt size : string) (h : heap)
    (t : territory) :
  In t (h_territories h) ->
  truthy (ParentTerritory2Id t) = true ->
  dict_get (h_levels h) (Id t) = None ->
  exists l1 t0 l2,
    h_territories h = l1 ++ t0 :: l2
    /\ leveled (h_levels h) l1
    /\ truthy (ParentTerritory2Id t0) = true
    /\ dict_get (h_levels h) (Id t0) = None
    /\ fst (create_graph fmt size h) = Raise (KeyError (Id t0))
    /\ body (h_dot (snd (create_graph fmt size h)))
       = body (graph_header fmt size)
         ++ flat_map (territory_stmts (h_levels h)) l1
         ++ [NodeStmt (Id t0) (Name t0)]
    /\ h_files (snd (create_graph fmt size h)) = h_files h.
Proof.
  intros Hin Ht Hnone.
  destruct (loop_trace_fail (h_levels h) (h_territories h))
    as (l1 & t0 & l2 & Hts & Hl1 & U0 & R0).
  { exists t. split; [assumption|]. unfold unleveled. now rewrite Ht, Hnone. }
  exists l1, t0, l2. split; [assumption|]. split; [assumption|].
  unfold unleveled in U0. apply andb_true_iff in U0. destruct U0 as [T0 N0].
  split; [assumption|]. split; [now destruct (dict_get (h_levels h) (Id t0))|].
  rewrite create_graph_run, R0. repeat split.
Qed.

Lemma create_graph_raises_on_missing_level_witness :
  exists l1 t0 l2,
    self_parent = l1 ++ t0 :: l2
    /\ leveled [] l1
    /\ truthy (ParentTerritory2Id t0) = true
    /\ dict_get (@nil (string * nat)) (Id t0) = None
    /\ fst (create_graph "png" "800,800" (call_heap self_parent []))
       = Raise (KeyError (Id t0))
    /\ body (h_dot (snd (create_graph "png" "800,800" (call_heap self_parent []))))
       = body (graph_header "png" "800,800")
         ++ flat_map (territory_stmts []) l1
         ++ [NodeStmt (Id t0) (Name t0)]
    /\ h_files (snd (create_graph "png" "800,800" (call_heap self_parent []))) = [].
Proof.
  apply (create_graph_raises_on_missing_level "png" "800,800"
           (call_heap self_parent []) (mkTerritory "A" "A" (Some "A"))).
  - simpl. auto.
  - reflexivity.
  - reflexivity.
Defined.

Lemma leveled_two_level : leveled [("A", 0); ("B", 1)] two_level.
Proof.
  intros t [<-|[<-|[]]] _; simpl; discriminate.
Defined.

Lemma graph_edges_ok (fmt size : string) (h : heap) :
  leveled (h_levels h) (h_territories h) ->
  edges (body (h_dot (snd (create_graph fmt size h))))
  = edges (flat_map (territory_stmts (h_levels h)) (h_territories h)).
Proof.
  intros Hl. destruct (create_graph_ok fmt size h Hl) as [_ ->].
  unfold add_stmts, graph_header. cbn [body]. now rewrite edges_app.
Qed.

(** C6, as stated, fails twice.  A record whose parent is the empty string
    has a parent that is not null and gets no edge; and for a record whose
    parent is not in the input, so that it has no level, [create_graph]
    raises before any edge is added. *)
Lemma no_edge_for_some_non_null_parents :
  (fst (create_graph "png" "800,800" (call_heap empty_parent [("G", 0)]))
   = Ok "/tmp/territories.png"
   /\ edges (body (h_dot (snd (create_graph "png" "800,800"
                                 (call_heap empty_parent [("G", 0)])))))
      = [])
  /\ (determine_levels 1 dangling = Some []
      /\ fst (create_graph "png" "800,800" (call_heap dangling []))
         = Raise (KeyError "F")
      /\ edges (body (h_dot (snd (create_graph "png" "800,800"
                                    (call_heap dangling [])))))
         = []).
Proof. repeat split. Qed.

(** C6, amended: when every record with a non-empty parent has a level,
    [create_graph] returns, and its edges are, in input order, exactly one
    edge from parent to id for every record whose parent is neither null nor
    empty; records whose parent is null or empty contribute no edge. *)
Theorem one_edge_per_record_with_parent (fmt size : string) (h : heap) :
  leveled (h_levels h) (h_territories h) ->
  fst (create_graph fmt size h) = Ok ("/tmp/territories" ++ "." ++ fmt)%string
  /\ Forall2 (fun t e => exists c, e = (parent_name t, Id t, c))
       (filter has_parent_ref (h_territories h))
       (edges (body (h_dot (snd (create_graph fmt size h)))))
  /\ (forall tl hd c,
        In (tl, hd, c) (edges (body (h_dot (snd (create_graph fmt size h))))) ->
        exists t, In t (h_territories h) /\ ParentTerritory2Id t = Some tl
                  /\ tl <> "" /\ Id t = hd).
Proof.
  intros Hl. split; [apply (create_graph_ok fmt size h Hl)|]. split.
  - rewrite (graph_edges_ok fmt size h Hl).
    eapply Forall2_impl; [|apply edges_one_per_child; exact Hl].
    intros t e (L & _ & ->). eauto.
  - intros tl hd c Hin.
    destruct (create_graph_edges _ _ _ _ _ _ Hin) as (t & L & H1 & H2 & H3 & H4 & _).
    exists t. apply truthy_Some in H3. auto.
Qed.

Lemma one_edge_per_record_with_parent_witness :
  let h := call_heap two_level [("A", 0); ("B", 1)] in
  fst (create_graph "png" "800,800" h) = Ok "/tmp/territories.png"
  /\ Forall2 (fun t e => exists c, e = (parent_name t, Id t, c))
       (filter has_parent_ref (h_territories h))
       (edges (body (h_dot (snd (create_graph "png" "800,800" h)))))
  /\ (forall tl hd c,
        In (tl, hd, c) (edges (body (h_dot (snd (create_graph "png" "800,800" h))))) ->
        exists t, In t (h_territories h) /\ ParentTerritory2Id t = Some tl
                  /\ tl <> "" /\ Id t = hd).
Proof.
  apply (one_edge_per_record_with_parent "png" "800,800"
           (call_heap two_level [("A", 0); ("B", 1)])).
  exact leveled_two_level.
Defined.

(** C7: the palette has six entries, and every edge of the graph object has
    the colour [colors[level mod len(colors)]] of the level of the record it
    leads to; so two edges whose levels are congruent modulo the palette
    length have the same colour.  When every record with a parent has a
    level, the graph is built and has, in input order, one such edge per
    record with a parent. *)
Theorem edge_color_is_level_mod_palette (fmt size : string) (h : heap) :
  length colors = 6
  /\ (forall L, nth_error colors (L mod length colors) = Some (level_color L))
  /\ (forall tl hd c,
        In (tl, hd, c) (edges (body (h_dot (snd (create_graph fmt size h))))) ->
        exists L, dict_get (h_levels h) hd = Some L /\ c = level_color L)
  /\ (forall tl1 hd1 c1 tl2 hd2 c2 L1 L2,
        In (tl1, hd1, c1) (edges (body (h_dot (snd (create_graph fmt size h))))) ->
        In (tl2, hd2, c2) (edges (body (h_dot (snd (create_graph fmt size h))))) ->
        dict_get (h_levels h) hd1 = Some L1 ->
        dict_get (h_levels h) hd2 = Some L2 ->
        L1 mod length colors = L2 mod length colors ->
        c1 = c2)
  /\ (leveled (h_levels h) (h_territories h) ->
      fst (create_graph fmt size h) = Ok ("/tmp/territories" ++ "." ++ fmt)%string
      /\ Forall2
           (fun t e => exists L, dict_get (h_levels h) (Id t) = Some L
                                 /\ e = (parent_name t, Id t, level_color L))
           (filter has_parent_ref (h_territories h))
           (edges (body (h_dot (snd (create_graph fmt size h)))))).
Proof.
  assert (Hcol : forall tl hd c,
            In (tl, hd, c) (edges (body (h_dot (snd (create_graph fmt size h))))) ->
            exists L, dict_get (h_levels h) hd = Some L /\ c = level_color L).
  { intros tl hd c Hin.
    destruct (create_graph_edges _ _ _ _ _ _ Hin) as (t & L & _ & _ & _ & _ & HL & Hc).
    eauto. }
  split; [reflexivity|]. split; [apply colors_getitem|]. split; [exact Hcol|]. split.
  - intros tl1 hd1 c1 tl2 hd2 c2 L1 L2 H1 H2 E1 E2 Hmod.
    destruct (Hcol _ _ _ H1) as (L1' & E1' & ->).
    destruct (Hcol _ _ _ H2) as (L2' & E2' & ->).
    assert (L1' = L1) by congruence. assert (L2' = L2) by congruence. subst.
    unfold level_color. now rewrite Hmod.
  - intros Hl. split; [apply (create_graph_ok fmt size h Hl)|].
    rewrite (graph_edges_ok fmt size h Hl). now apply edges_one_per_child.
Qed.

Lemma leveled_two_roots : leveled two_roots_levels two_roots.
Proof.
  intros t [<-|[<-|[<-|[<-|[]]]]] _; simpl; discriminate.
Defined.

Lemma edge_color_is_level_mod_palette_witness :
  let h := call_heap two_roots two_roots_levels in
  fst (create_graph "svg" "800,800" h) = Ok "/tmp/territories.svg"
  /\ Forall2
       (fun t e => exists L, dict_get (h_levels h) (Id t) = Some L
                             /\ e = (parent_name t, Id t, level_color L))
       (filter has_parent_ref (h_territories h))
       (edges (body (h_dot (snd (create_graph "svg" "800,800" h))))).
Proof.
  apply (proj2 (proj2 (proj2 (proj2
           (edge_color_is_level_mod_palette "svg" "800,800"
              (call_heap two_roots two_roots_levels)))))).
  exact leveled_two_roots.
Defined.

Example two_roots_graph :
  determine_levels 4 two_roots = Some two_roots_levels
  /\ edges (body (h_dot (snd (create_graph "svg" "800,800"
                                (call_heap two_roots two_roots_levels)))))
     = [("A", "B", "blue"); ("X", "Y", "blue")].
Proof. split; reflexivity. Qed.

Lemma create_graph_frame (fmt size : string) (h : heap) :
  h_territories (snd (create_graph fmt size h)) = h_territories h
  /\ h_levels (snd (create_graph fmt size h)) = h_levels h.
Proof.
  rewrite create_graph_run.
  destruct (loop_trace (h_levels h) (h_territories h)) as [[[]|e] l];
    split; reflexivity.
Qed.

Lemma create_graph_pure (fmt size : string) (h h' : heap) :
  h_territories h = h_territories h' -> h_levels h = h_levels h' ->
  fst (create_graph fmt size h) = fst (create_graph fmt size h')
  /\ h_dot (snd (create_graph fmt size h)) = h_dot (snd (create_graph fmt size h')).
Proof.
  intros Ht Hl. rewrite !create_graph_run, Ht, Hl.
  destruct (loop_trace (h_levels h') (h_territories h')) as [[[]|e] l];
    split; reflexivity.
Qed.

Lemma dict_set_twice_get {V : Type} (d : dict V) (a b k : string) (x y : V) :
  dict_get (dict_set (dict_set (dict_set (dict_set d a x) b y) a x) b y) k
  = dict_get (dict_set (dict_set d a x) b y) k.
Proof.
  rewrite !dict_get_set.
  destruct (String.eqb b k); [reflexivity|].
  destruct (String.eqb a k); reflexivity.
Qed.

Lemma create_graph_files_again (fmt size : string) (h : heap) (k : string) :
  dict_get (h_files (snd (create_graph fmt size (snd (create_graph fmt size h))))) k
  = dict_get (h_files (snd (create_graph fmt size h))) k.
Proof.
  destruct (create_graph_frame fmt size h) as [Ht Hl].
  rewrite (create_graph_run fmt size (snd (create_graph fmt size h))), Ht, Hl.
  rewrite create_graph_run.
  destruct (loop_trace (h_levels h) (h_territories h)) as [[[]|e] l];
    cbn [snd h_files set_files set_dot]; [apply dict_set_twice_get | reflexivity].
Qed.

(** C9: [create_graph] leaves the records and the level map as they were,
    and its result and graph depend on nothing else: a second call on the
    heap the first call left, or a call on any heap with the same records and
    level map, gives the same result, the same graph and the same files. *)
Theorem create_graph_deterministic (fmt size : string) (ts : list territory)
    (lv : dict nat) (g g' : Digraph) (fs fs' : dict file) :
  let run1 := create_graph fmt size (mkHeap ts lv g fs) in
  let run2 := create_graph fmt size (snd run1) in
  let other := create_graph fmt size (mkHeap ts lv g' fs') in
  (h_territories (snd run1) = ts /\ h_levels (snd run1) = lv)
  /\ (h_territories (snd run2) = ts /\ h_levels (snd run2) = lv)
  /\ (fst run2 = fst run1 /\ h_dot (snd run2) = h_dot (snd run1))
  /\ (fst other = fst run1 /\ h_dot (snd other) = h_dot (snd run1))
  /\ (forall k, dict_get (h_files (snd run2)) k = dict_get (h_files (snd run1)) k).
Proof.
  intros run1 run2 other.
  pose proof (create_graph_frame fmt size (mkHeap ts lv g fs)) as F1.
  pose proof (create_graph_frame fmt size (snd run1)) as F2.
  fold run1 in F1. fold run2 in F2. simpl in F1.
  destruct F1 as [T1 L1]. destruct F2 as [T2 L2].
  split; [auto|]. split; [split; congruence|]. split.
  - apply create_graph_pure; simpl; congruence.
  - split; [apply create_graph_pure; reflexivity|].
    intros k. apply create_graph_files_again.
Qed.

(** ** An empty parent reference *)

Lemma as_root_fields (t : territory) :
  Id (as_root t) = Id t /\ Name (as_root t) = Name t
  /\ truthy (ParentTerritory2Id (as_root t)) = truthy (ParentTerritory2Id t).
Proof.
  unfold as_root. destruct (truthy (ParentTerritory2Id t)) eqn:E; simpl; auto.
Qed.

Lemma as_root_parent (t : territory) :
  truthy (ParentTerritory2Id t) = true ->
  ParentTerritory2Id (as_root t) = ParentTerritory2Id t.
Proof. unfold as_root. now intros ->. Qed.

Lemma index_territory_as_root (st : locals) (t : territory) :
  index_territory st (as_root t) = index_territory st t.
Proof.
  unfold as_root. destruct (truthy (ParentTerritory2Id t)) eqn:E; [reflexivity|].
  unfold index_territory. simpl.
  destruct (ParentTerritory2Id t) as [p|]; [|reflexivity]. now rewrite E.
Qed.

Lemma index_territories_as_root (ts : list territory) :
  index_territories (map as_root ts) = index_territories ts.
Proof.
  unfold index_territories. generalize (mkLocals [] []).
  induction ts as [|t ts IH]; intros st; simpl; [reflexivity|].
  now rewrite index_territory_as_root, IH.
Qed.

Lemma loop_trace_as_root (lv : dict nat) (ts : list territory) :
  loop_trace lv (map as_root ts) = loop_trace lv ts.
Proof.
  induction ts as [|t ts IH]; [reflexivity|]. cbn [map loop_trace].
  destruct (as_root_fields t) as (Hid & Hname & Htr).
  assert (Hu : unleveled lv (as_root t) = unleveled lv t).
  { unfold unleveled. now rewrite Htr, Hid. }
  assert (Hs : territory_stmts lv (as_root t) = territory_stmts lv t).
  { unfold territory_stmts. rewrite Hid, Hname.
    destruct (truthy (ParentTerritory2Id t)) eqn:E.
    - now rewrite (as_root_parent t E).
    - unfold as_root. rewrite E. simpl.
      destruct (ParentTerritory2Id t) as [p|]; [now rewrite E | reflexivity]. }
  now rewrite Hu, Hs, Hid, Hname, IH.
Qed.

(** C10, as stated, fails: with the id [G] once with the empty string as
    parent and once under the root [R], the entry 0 of [G] is overwritten
    when [R] is traversed, so the returned level map has [G] at level 1, and
    the graph has the edge from [R] to [G]. *)
Lemma empty_parent_level_overwritten :
  In (mkTerritory "G" "Empty" (Some "")) dup_empty
  /\ (forall fuel, 2 <= fuel ->
        determine_levels fuel dup_empty = Some [("R", 0); ("G", 1)])
  /\ ~ (exists fuel lv, determine_levels fuel dup_empty = Some lv
                        /\ dict_get lv "G" = Some 0)
  /\ fst (create_graph "png" "800,800" (call_heap dup_empty [("R", 0); ("G", 1)]))
     = Ok "/tmp/territories.png"
  /\ edges (body (h_dot (snd (create_graph "png" "800,800"
                                (call_heap dup_empty [("R", 0); ("G", 1)])))))
     = [("R", "G", "blue")].
Proof.
  assert (H2 : determine_levels 2 dup_empty = Some [("R", 0); ("G", 1)])
    by reflexivity.
  split; [simpl; auto|]. split; [|split; [|split; reflexivity]].
  - intros fuel Hle. now apply (determine_levels_le 2).
  - intros (fuel & lv & H & HG).
    rewrite (determine_levels_result_unique _ _ _ _ _ H2 H) in HG. discriminate.
Qed.

(** C10, amended: in an input whose ids are pairwise distinct, a record whose
    parent is the empty string is treated as a root by both functions: the
    returned level map has it at level 0 and no edge of the graph leads to
    it.  On every input it is handled as a record whose parent is null: the
    first loop of [determine_levels] gives it level 0 and makes it an initial
    node, the loop of [create_graph] adds its node and no edge for it, and
    replacing every empty parent by [None] changes neither the level map nor
    the result and graph of [create_graph]. *)
Theorem empty_parent_is_root (ts : list territory) (t : territory) :
  In t ts -> ParentTerritory2Id t = Some "" ->
  (dict_get (levels (index_territories ts)) (Id t) = Some 0
   /\ In (Id t) (dict_keys (levels (index_territories ts))))
  /\ (forall h,
        add_territory t h
        = (Ok tt, set_dot (add_stmt (NodeStmt (Id t) (Name t)) (h_dot h)) h))
  /\ (forall fuel, determine_levels fuel (map as_root ts) = determine_levels fuel ts)
  /\ (forall fmt size lv g fs,
        fst (create_graph fmt size (mkHeap (map as_root ts) lv g fs))
        = fst (create_graph fmt size (mkHeap ts lv g fs))
        /\ h_dot (snd (create_graph fmt size (mkHeap (map as_root ts) lv g fs)))
           = h_dot (snd (create_graph fmt size (mkHeap ts lv g fs))))
  /\ (unique_ids ts ->
      (exists lv,
         (forall fuel, length ts <= fuel -> determine_levels fuel ts = Some lv)
         /\ dict_get lv (Id t) = Some 0)
      /\ (forall fmt size lv g fs tl c,
            ~ In (tl, Id t, c)
                (edges (body (h_dot (snd (create_graph fmt size
                                            (mkHeap ts lv g fs)))))))).
Proof.
  intros Hin Hp.
  assert (Hroot : is_root ts (Id t)) by (exists t; rewrite Hp; auto).
  split; [|split; [|split; [|split]]].
  - split; [now apply initial_levels | now apply initial_nodes_roots].
  - intros h. unfold add_territory. rewrite Hp. reflexivity.
  - intros fuel. unfold determine_levels. now rewrite index_territories_as_root.
  - intros fmt size lv g fs. rewrite !create_graph_run. simpl.
    rewrite loop_trace_as_root.
    destruct (loop_trace lv ts) as [[[]|e] l]; split; reflexivity.
  - intros Huniq. split.
    + destruct (determine_levels_total ts Huniq) as [lv Hlv].
      exists lv. split; [assumption|].
      apply (determine_levels_exact _ _ _ Huniq (Hlv _ (le_n _))).
      exists []. split; [now constructor | reflexivity].
    + intros fmt size lv g fs tl c Hedge.
      destruct (create_graph_edges _ _ _ _ _ _ Hedge)
        as (t' & L & Hin' & Hp' & Htr & Hid & _).
      simpl in Hin'.
      assert (t' = t) by (apply (unique_record ts Huniq); assumption).
      subst t'. rewrite Hp in Hp'. inversion Hp'; subst tl. discriminate.
Qed.

Lemma unique_ids_empty_parent : unique_ids empty_parent.
Proof.
  unfold unique_ids, empty_parent. simpl.
  constructor; [simpl; tauto | constructor].
Defined.

Lemma empty_parent_is_root_witness :
  (dict_get (levels (index_territories empty_parent)) "G" = Some 0
   /\ In "G" (dict_keys (levels (index_territories empty_parent))))
  /\ (forall h,
        add_territory (mkTerritory "G" "Empty" (Some "")) h
        = (Ok tt, set_dot (add_stmt (NodeStmt "G" "Empty") (h_dot h)) h))
  /\ (forall fuel,
        determine_levels fuel (map as_root empty_parent)
        = determine_levels fuel empty_parent)
  /\ (exists lv,
        (forall fuel, length empty_parent <= fuel ->
           determine_levels fuel empty_parent = Some lv)
        /\ dict_get lv "G" = Some 0)
  /\ (forall fmt size lv g fs tl c,
        ~ In (tl, "G", c)
            (edges (body (h_dot (snd (create_graph fmt size
                                        (mkHeap empty_parent lv g fs))))))).
Proof.
  destruct (empty_parent_is_root empty_parent (mkTerritory "G" "Empty" (Some "")))
    as (H1 & H2 & H3 & _ & H5).
  - simpl. auto.
  - reflexivity.
  - destruct (H5 unique_ids_empty_parent) as [H6 H7].
    split; [exact H1|]. split; [exact H2|]. split; [exact H3|].
    split; [exact H6 | exact H7].
Defined.

(** * Further properties of determine_levels *)

(** Whenever [determine_levels] returns, also on duplicate ids, an id has a
    level exactly when it is reached from a root along parent links, and its
    level is the length of such a chain of links. *)
Theorem levels_are_chain_lengths (fuel : nat) (ts : list territory) (lv : dict nat) :
  determine_levels fuel ts = Some lv ->
  (forall x, dict_get lv x <> None <-> exists path, chain ts path x)
  /\ (forall x d, dict_get lv x = Some d ->
        exists path, chain ts path x /\ length path = d).
Proof.
  intros Hrun. split.
  - intros x. split.
    + destruct (dict_get lv x) as [d|] eqn:E; [|congruence]. intros _.
      destruct (determine_levels_sound _ _ _ Hrun _ _ E) as (path & Hc & _). eauto.
    + intros (path & Hc). eapply determine_levels_complete; eassumption.
  - apply (determine_levels_sound _ _ _ Hrun).
Qed.

Lemma levels_are_chain_lengths_witness :
  (forall x, dict_get [("R", 0); ("M", 1); ("A", 1)] x <> None
             <-> exists path, chain dup_two_parents path x)
  /\ (forall x d, dict_get [("R", 0); ("M", 1); ("A", 1)] x = Some d ->
        exists path, chain dup_two_parents path x /\ length path = d).
Proof. apply (levels_are_chain_lengths 3 dup_two_parents). reflexivity. Defined.

(** Whenever [determine_levels] returns, every key of the level map is the
    [Id] of an input record: a parent id that no record bears gets an entry
    in [children], never in [levels]. *)
Theorem level_keys_are_input_ids (fuel : nat) (ts : list territory) (lv : dict nat)
    (x : string) :
  determine_levels fuel ts = Some lv -> In x (dict_keys lv) -> In x (map Id ts).
Proof.
  intros Hrun Hx. apply dict_keys_get in Hx.
  destruct (dict_get lv x) as [d|] eqn:E; [|congruence].
  destruct (determine_levels_sound _ _ _ Hrun _ _ E) as (path & Hc & _).
  eapply chain_end_is_id; eassumption.
Qed.

Lemma level_keys_are_input_ids_witness : In "B" (map Id mixed).
Proof.
  apply (level_keys_are_input_ids 7 mixed [("A", 0); ("G", 0); ("B", 1)] "B").
  - reflexivity.
  - simpl. auto.
Defined.

Lemma index_levels_no_root (ts : list territory) :
  (forall t, In t ts -> truthy (ParentTerritory2Id t) = true) ->
  forall st, levels (fold_left index_territory ts st) = levels st.
Proof.
  induction ts as [|t l IH]; intros Hall st; [reflexivity|]. simpl.
  rewrite IH by (intros t' Hin; apply Hall; now right).
  destruct (index_territory_cases st t) as [(_ & q & _ & ->)|(Ht & _)];
    [reflexivity|].
  rewrite (Hall t (or_introl eq_refl)) in Ht. discriminate.
Qed.

(** When no record is a root, the first loop leaves [levels] empty, there is
    no initial node, and [determine_levels] returns the empty map without
    calling [assign_levels] at all. *)
Theorem no_root_no_levels (ts : list territory) :
  (forall t, In t ts -> truthy (ParentTerritory2Id t) = true) ->
  forall fuel, determine_levels fuel ts = Some [].
Proof.
  intros Hall fuel. unfold determine_levels, index_territories.
  rewrite (index_levels_no_root ts Hall). simpl.
  now rewrite (index_levels_no_root ts Hall).
Qed.

Lemma no_root_no_levels_witness :
  determine_levels 0
    [mkTerritory "D" "Cycle1" (Some "E"); mkTerritory "E" "Cycle2" (Some "D");
     mkTerritory "F" "Dangling" (Some "Z")] = Some [].
Proof.
  apply no_root_no_levels.
  intros t [<-|[<-|[<-|[]]]]; reflexivity.
Defined.

Lemma is_root_incl (ts ts' : list territory) (r : string) :
  incl ts ts' -> is_root ts r -> is_root ts' r.
Proof. intros Hi (t & Hin & H). exists t. auto. Qed.

Lemma is_child_incl (ts ts' : list territory) (p c : string) :
  incl ts ts' -> is_child ts p c -> is_child ts' p c.
Proof. intros Hi (t & Hin & H). exists t. auto. Qed.

Lemma chain_incl (ts ts' : list territory) (path : list string) (x : string) :
  incl ts ts' -> chain ts path x -> chain ts' path x.
Proof.
  intros Hi. induction 1 as [r Hr|path p c _ IH Hc].
  - constructor. eapply is_root_incl; eassumption.
  - constructor; [assumption|]. eapply is_child_incl; eassumption.
Qed.

(** With unique ids, a record with a parent is one level below it, or has no
    level when the parent has none. *)
Lemma level_of_child (fuel : nat) (ts : list territory) (lv : dict nat)
    (t : territory) (p : string) :
  unique_ids ts -> determine_levels fuel ts = Some lv ->
  In t ts -> ParentTerritory2Id t = Some p -> p <> "" ->
  dict_get lv (Id t) = option_map S (dict_get lv p).
Proof.
  intros Huniq Hrun Hin Hp Hne.
  pose proof (determine_levels_exact _ _ _ Huniq Hrun) as Hex.
  pose proof (child_of_record ts t p Hin Hp Hne) as Hchild.
  destruct (dict_get lv p) as [L|] eqn:EL; simpl.
  - apply Hex in EL. destruct EL as (path & Hc & Hlen).
    apply Hex. exists (p :: path). split; [now apply chain_step | simpl; lia].
  - destruct (dict_get lv (Id t)) as [d|] eqn:E; [|reflexivity]. exfalso.
    apply Hex in E. destruct E as (path & Hc & _).
    inversion Hc as [r Hr|path' q c Hq Hqc]; subst.
    + eapply root_not_child; eassumption.
    + assert (q = p) by (eapply child_parent_unique; eassumption). subst q.
      pose proof (determine_levels_complete _ _ _ Hrun _ _ Hq). congruence.
Qed.

(** With unique ids the level of an id is its depth: the number of parent
    links on the one chain that leads from it to a root; and every level is
    below the number of records. *)
Theorem level_is_depth (ts : list territory) :
  unique_ids ts ->
  exists lv,
    (forall fuel, length ts <= fuel -> determine_levels fuel ts = Some lv)
    /\ (forall x d, dict_get lv x = Some d <->
          exists path, chain ts path x /\ length path = d)
    /\ (forall x p1 p2, chain ts p1 x -> chain ts p2 x -> p1 = p2)
    /\ (forall x d, dict_get lv x = Some d -> d < length ts).
Proof.
  intros Huniq. destruct (determine_levels_total ts Huniq) as [lv Hlv].
  pose proof (determine_levels_exact _ _ _ Huniq (Hlv _ (le_n _))) as Hex.
  exists lv. split; [assumption|]. split; [exact Hex|]. split.
  - intros x p1 p2. apply (chain_functional ts Huniq).
  - intros x d Hd. apply Hex in Hd. destruct Hd as (path & Hc & <-).
    apply (chain_length ts Huniq _ _ Hc).
Qed.

Lemma level_is_depth_witness :
  exists lv,
    (forall fuel, length mixed <= fuel -> determine_levels fuel mixed = Some lv)
    /\ (forall x d, dict_get lv x = Some d <->
          exists path, chain mixed path x /\ length path = d)
    /\ (forall x p1 p2, chain mixed p1 x -> chain mixed p2 x -> p1 = p2)
    /\ (forall x d, dict_get lv x = Some d -> d < length mixed).
Proof. apply (level_is_depth mixed). exact unique_ids_mixed. Defined.

(** With unique ids the level of each id does not depend on the order of
    the records in the input. *)
Theorem levels_ignore_input_order (ts ts' : list territory) :
  unique_ids ts -> Permutation ts ts' ->
  exists lv lv',
    (forall fuel, length ts <= fuel ->
       determine_levels fuel ts = Some lv /\ determine_levels fuel ts' = Some lv')
    /\ (forall x, dict_get lv x = dict_get lv' x).
Proof.
  intros Huniq Hperm.
  assert (Huniq' : unique_ids ts').
  { unfold unique_ids in *. eapply Permutation_NoDup; [|exact Huniq].
    now apply Permutation_map. }
  destruct (determine_levels_total ts Huniq) as [lv Hlv].
  destruct (determine_levels_total ts' Huniq') as [lv' Hlv'].
  pose proof (Permutation_length Hperm) as Hlen.
  pose proof (determine_levels_exact _ _ _ Huniq (Hlv _ (le_n _))) as Hex.
  pose proof (determine_levels_exact _ _ _ Huniq' (Hlv' _ (le_n _))) as Hex'.
  assert (Hi : incl ts ts') by (intros t; apply Permutation_in; exact Hperm).
  assert (Hi' : incl ts' ts)
    by (intros t; apply Permutation_in; now apply Permutation_sym).
  exists lv, lv'. split.
  - intros fuel Hle. split; [now apply Hlv | apply Hlv'; lia].
  - intros x. destruct (dict_get lv x) as [d|] eqn:E.
    + symmetry. apply Hex'. apply Hex in E. destruct E as (path & Hc & Hd).
      exists path. split; [eapply chain_incl; eassumption | assumption].
    + destruct (dict_get lv' x) as [d'|] eqn:E'; [|reflexivity].
      apply Hex' in E'. destruct E' as (path & Hc & Hd).
      assert (E2 : dict_get lv x = Some d').
      { apply Hex. exists path. split; [eapply chain_incl; eassumption | assumption]. }
      congruence.
Qed.

Lemma levels_ignore_input_order_witness :
  exists lv lv',
    (forall fuel, length two_level <= fuel ->
       determine_levels fuel two_level = Some lv
       /\ determine_levels fuel (rev two_level) = Some lv')
    /\ (forall x, dict_get lv x = dict_get lv' x).
Proof.
  apply (levels_ignore_input_order two_level (rev two_level)).
  - unfold unique_ids, two_level. simpl.
    repeat (constructor; [simpl; intuition discriminate|]). constructor.
  - apply Permutation_rev.
Defined.

(** With unique ids, two records with the same non-empty parent get the same
    level, or both get none. *)
Theorem siblings_share_a_level (ts : list territory) :
  unique_ids ts ->
  exists lv,
    (forall fuel, length ts <= fuel -> determine_levels fuel ts = Some lv)
    /\ (forall t1 t2 p, In t1 ts -> In t2 ts -> p <> "" ->
          ParentTerritory2Id t1 = Some p -> ParentTerritory2Id t2 = Some p ->
          dict_get lv (Id t1) = dict_get lv (Id t2)).
Proof.
  intros Huniq. destruct (determine_levels_total ts Huniq) as [lv Hlv].
  exists lv. split; [assumption|]. intros t1 t2 p H1 H2 Hne P1 P2.
  pose proof (Hlv _ (le_n _)) as Hrun.
  rewrite (level_of_child _ _ _ t1 p Huniq Hrun H1 P1 Hne).
  now rewrite (level_of_child _ _ _ t2 p Huniq Hrun H2 P2 Hne).
Qed.

Lemma unique_ids_family : unique_ids family.
Proof.
  unfold unique_ids, family. simpl.
  repeat (constructor; [simpl; intuition discriminate|]). constructor.
Defined.

Lemma siblings_share_a_level_witness :
  exists lv,
    (forall fuel, length family <= fuel -> determine_levels fuel family = Some lv)
    /\ dict_get lv "B" = dict_get lv "C".
Proof.
  destruct (siblings_share_a_level family unique_ids_family) as (lv & Hrun & H).
  exists lv. split; [exact Hrun|].
  apply (H (mkTerritory "B" "Child1" (Some "A"))
           (mkTerritory "C" "Child2" (Some "A")) "A");
    [simpl; auto | simpl; auto | discriminate | reflexivity | reflexivity].
Defined.

(** * Further properties of create_graph *)

Lemma leveled_or_not (lv : dict nat) (ts : list territory) :
  leveled lv ts \/ exists t, In t ts /\ unleveled lv t = true.
Proof.
  destruct (existsb (unleveled lv) ts) eqn:E.
  - right. apply existsb_exists in E. exact E.
  - left. intros t Hin. apply unleveled_false.
    destruct (unleveled lv t) eqn:Et; [|reflexivity].
    assert (existsb (unleveled lv) ts = true) by (apply existsb_exists; eauto).
    congruence.
Qed.

Lemma unleveled_true (lv : dict nat) (t : territory) :
  unleveled lv t = true <->
  truthy (ParentTerritory2Id t) = true /\ dict_get lv (Id t) = None.
Proof.
  unfold unleveled. rewrite andb_true_iff.
  destruct (dict_get lv (Id t)); split; intros [H1 H2]; split; congruence.
Qed.

Lemma create_graph_ok_iff (fmt size : string) (h : heap) :
  fst (create_graph fmt size h) = Ok ("/tmp/territories" ++ "." ++ fmt)%string
  <-> leveled (h_levels h) (h_territories h).
Proof.
  split; [|apply create_graph_ok].
  rewrite create_graph_run.
  destruct (leveled_or_not (h_levels h) (h_territories h)) as [Hl|Hex]; [auto|].
  destruct (loop_trace_fail _ _ Hex) as (l1 & t0 & l2 & _ & _ & _ & ->).
  discriminate.
Qed.

Lemma create_graph_raise (fmt size : string) (h : heap) (e : exn) :
  fst (create_graph fmt size h) = Raise e ->
  exists t, In t (h_territories h)
            /\ truthy (ParentTerritory2Id t) = true
            /\ dict_get (h_levels h) (Id t) = None
            /\ e = KeyError (Id t).
Proof.
  rewrite create_graph_run.
  destruct (leveled_or_not (h_levels h) (h_territories h)) as [Hl|Hex].
  - rewrite (loop_trace_ok _ _ Hl). discriminate.
  - destruct (loop_trace_fail _ _ Hex) as (l1 & t0 & l2 & Hts & _ & U0 & ->).
    cbn [fst]. intros He. inversion He; subst e.
    apply unleveled_true in U0. destruct U0 as [T0 N0].
    exists t0. split; [|auto]. rewrite Hts. apply in_or_app. right. now left.
Qed.

(** [create_graph] returns the path of the picture exactly when every record
    with a non-empty parent has a level; otherwise it raises [KeyError] on the
    id of such a record without a level.  It never raises [IndexError]: the
    index into [colors] is always in range. *)
Theorem create_graph_outcome (fmt size : string) (h : heap) :
  (fst (create_graph fmt size h) = Ok ("/tmp/territories" ++ "." ++ fmt)%string
   <-> leveled (h_levels h) (h_territories h))
  /\ (forall e, fst (create_graph fmt size h) = Raise e ->
        exists t, In t (h_territories h)
                  /\ truthy (ParentTerritory2Id t) = true
                  /\ dict_get (h_levels h) (Id t) = None
                  /\ e = KeyError (Id t))
  /\ (forall p, fst (create_graph fmt size h) = Ok p ->
        p = ("/tmp/territories" ++ "." ++ fmt)%string).
Proof.
  split; [apply create_graph_ok_iff|]. split; [apply create_graph_raise|].
  intros p. rewrite create_graph_run.
  destruct (loop_trace (h_levels h) (h_territories h)) as [[[]|e] l];
    cbn [fst]; [|discriminate].
  intros Hp. now inversion Hp.
Qed.

Lemma nodes_app (l1 l2 : list stmt) : nodes (l1 ++ l2) = nodes l1 ++ nodes l2.
Proof. unfold nodes. apply flat_map_app. Qed.

Lemma territory_nodes (lv : dict nat) (t : territory) :
  nodes (territory_stmts lv t) = [(Id t, Name t)].
Proof.
  unfold territory_stmts.
  destruct (ParentTerritory2Id t) as [p|]; [|reflexivity].
  destruct (truthy (Some p)); [|reflexivity].
  now destruct (dict_get lv (Id t)).
Qed.

Lemma nodes_flat_map (lv : dict nat) (ts : list territory) :
  nodes (flat_map (territory_stmts lv) ts) = map (fun t => (Id t, Name t)) ts.
Proof.
  induction ts as [|t ts IH]; [reflexivity|].
  cbn [flat_map map]. now rewrite nodes_app, territory_nodes, IH.
Qed.

(** The nodes of the graph object are, in input order, one per record, with
    its [Id] as name and its [Name] as label, roots and duplicates included:
    all the records when [create_graph] returns, and the records up to the
    one it raises on when it does not. *)
Theorem one_node_per_record (fmt size : string) (h : heap) :
  exists done rest,
    h_territories h = done ++ rest
    /\ nodes (body (h_dot (snd (create_graph fmt size h))))
       = map (fun t => (Id t, Name t)) done
    /\ (leveled (h_levels h) (h_territories h) -> rest = [])
    /\ (forall e, fst (create_graph fmt size h) = Raise e ->
          exists t, done <> [] /\ last done t = t /\ e = KeyError (Id t)
                    /\ In t done).
Proof.
  rewrite create_graph_run.
  destruct (leveled_or_not (h_levels h) (h_territories h)) as [Hl|Hex].
  - exists (h_territories h), []. rewrite (loop_trace_ok _ _ Hl).
    cbn [fst snd h_dot set_dot set_files add_stmts body graph_header].
    split; [now rewrite app_nil_r|]. split.
    + rewrite nodes_app. simpl. apply nodes_flat_map.
    + split; [reflexivity | discriminate].
  - destruct (loop_trace_fail _ _ Hex) as (l1 & t0 & l2 & Hts & Hl1 & U0 & ->).
    exists (l1 ++ [t0]), l2.
    cbn [fst snd h_dot set_dot set_files add_stmts body graph_header].
    split; [now rewrite <- app_assoc|]. split; [|split].
    + rewrite !nodes_app, nodes_flat_map, map_app. reflexivity.
    + intros Hl. exfalso. apply unleveled_true in U0. destruct U0 as [T0 N0].
      apply (Hl t0); [|assumption|assumption].
      rewrite Hts. apply in_or_app. right. now left.
    + intros e He. inversion He; subst e. exists t0.
      split; [now destruct l1|]. split; [apply last_last|].
      split; [reflexivity|]. apply in_or_app. right. now left.
Qed.

Lemma path_is_not_source (fmt : string) :
  String.eqb "/tmp/territories" ("/tmp/territories" ++ "." ++ fmt)%string = false.
Proof. reflexivity. Qed.

(** When [create_graph] returns, the path it returns holds the picture
    rendered from the graph just built, the DOT source of that graph is
    under [/tmp/territories] (the path without the extension), and no other
    file is touched. *)
Theorem rendered_file_is_at_returned_path (fmt size : string) (h : heap) (p : string) :
  fst (create_graph fmt size h) = Ok p ->
  let h' := snd (create_graph fmt size h) in
  dict_get (h_files h') p = Some (Rendered fmt (h_dot h'))
  /\ dict_get (h_files h') "/tmp/territories" = Some (DotSource (h_dot h'))
  /\ format (h_dot h') = fmt
  /\ (forall k, k <> p -> k <> "/tmp/territories" ->
        dict_get (h_files h') k = dict_get (h_files h) k).
Proof.
  rewrite create_graph_run.
  destruct (loop_trace (h_levels h) (h_territories h)) as [[[]|e] l];
    cbn [fst snd]; [|discriminate].
  intros Hp. inversion Hp; subst p. clear Hp.
  cbn [h_files h_dot set_files set_dot].
  split; [apply dict_get_set_eq|]. split; [|split].
  - rewrite dict_get_set.
    rewrite String.eqb_sym, path_is_not_source. apply dict_get_set_eq.
  - reflexivity.
  - intros k Hk1 Hk2. rewrite !dict_get_set.
    destruct (String.eqb_spec ("/tmp/territories" ++ "." ++ fmt)%string k) as [E|];
      [exfalso; apply Hk1; symmetry; exact E|].
    destruct (String.eqb_spec "/tmp/territories" k) as [E|];
      [exfalso; apply Hk2; symmetry; exact E | reflexivity].
Qed.

Lemma rendered_file_is_at_returned_path_witness :
  let h' := snd (create_graph "pdf" "800,800" (call_heap family family_levels)) in
  dict_get (h_files h') "/tmp/territories.pdf" = Some (Rendered "pdf" (h_dot h'))
  /\ dict_get (h_files h') "/tmp/territories" = Some (DotSource (h_dot h'))
  /\ format (h_dot h') = "pdf"
  /\ (forall k, k <> "/tmp/territories.pdf" -> k <> "/tmp/territories" ->
        dict_get (h_files h') k = dict_get (@nil (string * file)) k).
Proof.
  apply (rendered_file_is_at_returned_path "pdf" "800,800"
           (call_heap family family_levels) "/tmp/territories.pdf").
  reflexivity.
Defined.

(** * The two calls of main together *)

Lemma leveled_rooted (fuel : nat) (ts : list territory) (lv : dict nat) :
  determine_levels fuel ts = Some lv -> (leveled lv ts <-> rooted ts).
Proof.
  intros Hrun. unfold leveled, rooted. split; intros H t Hin Ht.
  - specialize (H t Hin Ht).
    destruct (dict_get lv (Id t)) as [d|] eqn:E; [|congruence].
    destruct (determine_levels_sound _ _ _ Hrun _ _ E) as (path & Hc & _). eauto.
  - destruct (H t Hin Ht) as (path & Hc).
    eapply determine_levels_complete; eassumption.
Qed.

(** With unique ids, [determine_levels] followed by [create_graph] returns the
    path of the picture exactly when every record with a non-empty parent is
    reached from a root; one dangling parent or one cycle makes the second
    call raise [KeyError] on the id of a record that is not reached. *)
Theorem visualize_outcome (fmt size : string) (ts : list territory) (fs : dict file) :
  unique_ids ts ->
  exists r h,
    (forall fuel, length ts <= fuel -> visualize fuel fmt size ts fs = Some (r, h))
    /\ (r = Ok ("/tmp/territories" ++ "." ++ fmt)%string <-> rooted ts)
    /\ (forall e, r = Raise e ->
          exists t, In t ts /\ truthy (ParentTerritory2Id t) = true
                    /\ (forall path, ~ chain ts path (Id t))
                    /\ e = KeyError (Id t)).
Proof.
  intros Huniq. destruct (determine_levels_total ts Huniq) as [lv Hlv].
  pose proof (Hlv _ (le_n _)) as Hrun.
  pose (h0 := mkHeap ts lv no_graph fs).
  pose proof (create_graph_ok_iff fmt size h0) as Hok.
  pose proof (create_graph_raise fmt size h0) as Hraise.
  exists (fst (create_graph fmt size h0)), (snd (create_graph fmt size h0)).
  split; [|split].
  - intros fuel Hle. unfold visualize. rewrite (Hlv fuel Hle).
    now rewrite <- surjective_pairing.
  - rewrite Hok. apply (leveled_rooted _ _ _ Hrun).
  - intros e He. destruct (Hraise e He) as (t & Hin & Ht & Hnone & ->).
    exists t. simpl in Hin, Hnone. split; [assumption|]. split; [assumption|].
    split; [|reflexivity].
    intros path Hc. exact (determine_levels_complete _ _ _ Hrun _ _ Hc Hnone).
Qed.

Lemma visualize_outcome_witness :
  exists r h,
    (forall fuel, length mixed <= fuel ->
       visualize fuel "png" "800,800" mixed [] = Some (r, h))
    /\ (r = Ok "/tmp/territories.png" <-> rooted mixed)
    /\ (forall e, r = Raise e ->
          exists t, In t mixed /\ truthy (ParentTerritory2Id t) = true
                    /\ (forall path, ~ chain mixed path (Id t))
                    /\ e = KeyError (Id t)).
Proof.
  apply (visualize_outcome "png" "800,800" mixed []). exact unique_ids_mixed.
Defined.

(** With unique ids, every edge of the graph the two calls build goes from a
    record at some level [L] to a record at level [L + 1], and has the colour
    [colors[(L + 1) mod len(colors)]]. *)
Theorem edges_go_one_level_down (fmt size : string) (ts : list territory)
    (fs : dict file) :
  unique_ids ts ->
  exists lv r h,
    (forall fuel, length ts <= fuel ->
       determine_levels fuel ts = Some lv
       /\ visualize fuel fmt size ts fs = Some (r, h))
    /\ (forall tl hd c, In (tl, hd, c) (edges (body (h_dot h))) ->
          exists L, dict_get lv tl = Some L /\ dict_get lv hd = Some (L + 1)
                    /\ c = level_color (L + 1)).
Proof.
  intros Huniq. destruct (determine_levels_total ts Huniq) as [lv Hlv].
  pose proof (Hlv _ (le_n _)) as Hrun.
  pose (h0 := mkHeap ts lv no_graph fs).
  exists lv, (fst (create_graph fmt size h0)), (snd (create_graph fmt size h0)).
  split.
  - intros fuel Hle. split; [now apply Hlv|]. unfold visualize.
    rewrite (Hlv fuel Hle). now rewrite <- surjective_pairing.
  - intros tl hd c Hedge.
    destruct (create_graph_edges _ _ _ _ _ _ Hedge)
      as (t & L' & Hin & Hp & Htr & Hid & HL & ->).
    simpl in Hin, HL. subst hd. apply truthy_Some in Htr.
    pose proof (level_of_child _ _ _ t tl Huniq Hrun Hin Hp Htr) as Hchild.
    rewrite HL in Hchild.
    destruct (dict_get lv tl) as [L|]; [|discriminate].
    simpl in Hchild. inversion Hchild; subst L'. exists L.
    rewrite Nat.add_1_r. auto.
Qed.

Lemma edges_go_one_level_down_witness :
  exists lv r h,
    (forall fuel, length family <= fuel ->
       determine_levels fuel family = Some lv
       /\ visualize fuel "svg" "800,800" family [] = Some (r, h))
    /\ (forall tl hd c, In (tl, hd, c) (edges (body (h_dot h))) ->
          exists L, dict_get lv tl = Some L /\ dict_get lv hd = Some (L + 1)
                    /\ c = level_color (L + 1)).
Proof.
  apply (edges_go_one_level_down "svg" "800,800" family []).
  exact unique_ids_family.
Defined.

(** When the input is not empty and no record is a root, the level map is
    empty and the second call raises [KeyError] on the id of the first
    record, whatever the recursion depth available. *)
Theorem visualize_without_root (fuel : nat) (fmt size : string) (t : territory)
    (ts : list territory) (fs : dict file) :
  (forall t', In t' (t :: ts) -> truthy (ParentTerritory2Id t') = true) ->
  determine_levels fuel (t :: ts) = Some []
  /\ exists h, visualize fuel fmt size (t :: ts) fs = Some (Raise (KeyError (Id t)), h)
               /\ nodes (body (h_dot h)) = [(Id t, Name t)]
               /\ edges (body (h_dot h)) = []
               /\ h_files h = fs.
Proof.
  intros Hall.
  assert (Hgen : forall l,
            (forall t', In t' l -> truthy (ParentTerritory2Id t') = true) ->
            determine_levels fuel l = Some []).
  { intros l Hl. unfold determine_levels, index_territories.
    rewrite (index_levels_no_root l Hl). simpl.
    now rewrite (index_levels_no_root l Hl). }
  pose proof (Hgen (t :: ts) Hall) as Hlv.
  split; [exact Hlv|]. unfold visualize. rewrite Hlv.
  eexists. split; [|split; [|split]].
  - rewrite create_graph_run. cbn [h_levels h_territories loop_trace].
    assert (U : unleveled [] t = true).
    { apply unleveled_true. split; [apply Hall; now left | reflexivity]. }
    rewrite U. reflexivity.
  - reflexivity.
  - reflexivity.
  - reflexivity.
Qed.

Lemma visualize_without_root_witness :
  determine_levels 0 self_parent = Some []
  /\ exists h, visualize 0 "png" "800,800" self_parent []
               = Some (Raise (KeyError "A"), h)
               /\ nodes (body (h_dot h)) = [("A", "A")]
               /\ edges (body (h_dot h)) = []
               /\ h_files h = [].
Proof.
  apply (visualize_without_root 0 "png" "800,800" (mkTerritory "A" "A" (Some "A")) [] []).
  intros t' [<-|[]]. reflexivity.
Defined.

Lemma graph_nodes_ok (fmt size : string) (h : heap) :
  leveled (h_levels h) (h_territories h) ->
  nodes (body (h_dot (snd (create_graph fmt size h))))
  = map (fun t => (Id t, Name t)) (h_territories h).
Proof.
  intros Hl. destruct (create_graph_ok fmt size h Hl) as [_ ->].
  unfold add_stmts, graph_header. cbn [body].
  rewrite nodes_app. simpl. apply nodes_flat_map.
Qed.

(** With unique ids, when every record with a parent is reached from a root,
    the two calls build a graph in which both ends of every edge are nodes of
    the graph: no edge leads from or to an id without a node statement. *)
Theorem edge_ends_are_nodes (fmt size : string) (ts : list territory)
    (fs : dict file) :
  unique_ids ts -> rooted ts ->
  exists h,
    (forall fuel, length ts <= fuel ->
       visualize fuel fmt size ts fs
       = Some (Ok ("/tmp/territories" ++ "." ++ fmt)%string, h))
    /\ (forall tl hd c, In (tl, hd, c) (edges (body (h_dot h))) ->
          In tl (map fst (nodes (body (h_dot h))))
          /\ In hd (map fst (nodes (body (h_dot h))))).
Proof.
  intros Huniq Hrooted. destruct (determine_levels_total ts Huniq) as [lv Hlv].
  pose proof (Hlv _ (le_n _)) as Hrun.
  pose (h0 := mkHeap ts lv no_graph fs).
  assert (Hl : leveled (h_levels h0) (h_territories h0))
    by (apply (leveled_rooted _ _ _ Hrun); exact Hrooted).
  exists (snd (create_graph fmt size h0)). split.
  - intros fuel Hle. unfold visualize. rewrite (Hlv fuel Hle). fold h0.
    rewrite <- (proj1 (create_graph_ok fmt size h0 Hl)).
    now rewrite <- surjective_pairing.
  - intros tl hd c Hedge. rewrite (graph_nodes_ok fmt size h0 Hl).
    rewrite map_map. simpl.
    destruct (create_graph_edges _ _ _ _ _ _ Hedge)
      as (t & L' & Hin & Hp & Htr & Hid & HL & _).
    simpl in Hin, HL. subst hd. apply truthy_Some in Htr.
    pose proof (level_of_child _ _ _ t tl Huniq Hrun Hin Hp Htr) as Hchild.
    rewrite HL in Hchild.
    destruct (dict_get lv tl) as [L|] eqn:EL; [|discriminate]. split.
    + destruct (determine_levels_sound _ _ _ Hrun _ _ EL) as (path & Hc & _).
      eapply chain_end_is_id; eassumption.
    + now apply in_map.
Qed.

Lemma rooted_family : rooted family.
Proof.
  assert (HA : chain family [] "A").
  { constructor. exists (mkTerritory "A" "Root" None). simpl. auto. }
  assert (HC : chain family ["A"] "C").
  { constructor; [exact HA|].
    exists (mkTerritory "C" "Child2" (Some "A")). simpl. auto 10. }
  intros t [<-|[<-|[<-|[<-|[]]]]] Ht; simpl.
  - discriminate.
  - exists ["A"]. constructor; [exact HA|].
    exists (mkTerritory "B" "Child1" (Some "A")). simpl. auto 10.
  - exists ["A"]. exact HC.
  - exists ["C"; "A"]. constructor; [exact HC|].
    exists (mkTerritory "D" "Grandchild" (Some "C")). simpl. auto 10.
Defined.

Lemma edge_ends_are_nodes_witness :
  exists h,
    (forall fuel, length family <= fuel ->
       visualize fuel "png" "800,800" family [] = Some (Ok "/tmp/territories.png", h))
    /\ (forall tl hd c, In (tl, hd, c) (edges (body (h_dot h))) ->
          In tl (map fst (nodes (body (h_dot h))))
          /\ In hd (map fst (nodes (body (h_dot h))))).
Proof.
  apply (edge_ends_are_nodes "png" "800,800" family []).
  - exact unique_ids_family.
  - exact rooted_family.
Defined.

(** With unique ids, level 0 is the level of the roots and of nothing else,
    and an id at a level above 0 belongs to a record whose non-empty parent
    is one level up. *)
Theorem levels_come_from_parents (ts : list territory) :
  unique_ids ts ->
  exists lv,
    (forall fuel, length ts <= fuel -> determine_levels fuel ts = Some lv)
    /\ (forall x, dict_get lv x = Some 0 <-> is_root ts x)
    /\ (forall x d, dict_get lv x = Some (S d) ->
          exists t p, In t ts /\ Id t = x /\ ParentTerritory2Id t = Some p
                      /\ p <> "" /\ dict_get lv p = Some d).
Proof.
  intros Huniq. destruct (determine_levels_total ts Huniq) as [lv Hlv].
  pose proof (determine_levels_exact _ _ _ Huniq (Hlv _ (le_n _))) as Hex.
  exists lv. split; [assumption|]. split.
  - intros x. rewrite Hex. split.
    + intros (path & Hc & Hlen). destruct path; [|discriminate].
      now inversion Hc.
    + intros Hr. exists []. split; [now constructor | reflexivity].
  - intros x d Hd. apply Hex in Hd. destruct Hd as (path & Hc & Hlen).
    inversion Hc as [r Hr|path' p c Hp (t & Hin & Hid & Hpar & Htr)]; subst.
    + discriminate.
    + exists t, p. apply truthy_Some in Htr. repeat split; try assumption.
      apply Hex. exists path'. split; [assumption|]. simpl in Hlen. lia.
Qed.

Lemma levels_come_from_parents_witness :
  exists lv,
    (forall fuel, length family <= fuel -> determine_levels fuel family = Some lv)
    /\ (forall x, dict_get lv x = Some 0 <-> is_root family x)
    /\ (forall x d, dict_get lv x = Some (S d) ->
          exists t p, In t family /\ Id t = x /\ ParentTerritory2Id t = Some p
                      /\ p <> "" /\ dict_get lv p = Some d).
Proof. apply (levels_come_from_parents family). exact unique_ids_family. Defined.

Lemma loop_trace_ext (lv lv' : dict nat) (ts : list territory) :
  (forall t, In t ts -> truthy (ParentTerritory2Id t) = true ->
     dict_get lv (Id t) = dict_get lv' (Id t)) ->
  loop_trace lv ts = loop_trace lv' ts.
Proof.
  induction ts as [|t ts IH]; intros Hsame; [reflexivity|].
  cbn [loop_trace].
  assert (Hu : unleveled lv t = unleveled lv' t).
  { unfold unleveled. destruct (truthy (ParentTerritory2Id t)) eqn:E; [|reflexivity].
    now rewrite (Hsame t (or_introl eq_refl) E). }
  assert (Hs : territory_stmts lv t = territory_stmts lv' t).
  { unfold territory_stmts. destruct (ParentTerritory2Id t) as [p|] eqn:Ep; [|reflexivity].
    destruct (truthy (Some p)) eqn:E; [|reflexivity].
    rewrite (Hsame t (or_introl eq_refl)); [reflexivity|]. now rewrite Ep. }
  rewrite Hu, Hs, IH; [reflexivity|].
  intros t' Hin. apply Hsame. now right.
Qed.

(** [create_graph] reads the level map only at the ids of the records that
    have a non-empty parent: two level maps that agree there give the same
    result and the same graph, whatever levels they give to the roots. *)
Theorem create_graph_reads_child_levels_only (fmt size : string)
    (ts : list territory) (lv lv' : dict nat) (g : Digraph) (fs : dict file) :
  (forall t, In t ts -> truthy (ParentTerritory2Id t) = true ->
     dict_get lv (Id t) = dict_get lv' (Id t)) ->
  fst (create_graph fmt size (mkHeap ts lv g fs))
  = fst (create_graph fmt size (mkHeap ts lv' g fs))
  /\ h_dot (snd (create_graph fmt size (mkHeap ts lv g fs)))
     = h_dot (snd (create_graph fmt size (mkHeap ts lv' g fs))).
Proof.
  intros Hsame. rewrite !create_graph_run.
  cbn [h_levels h_territories]. rewrite (loop_trace_ext lv lv' ts Hsame).
  destruct (loop_trace lv' ts) as [[[]|e] l]; split; reflexivity.
Qed.

Lemma create_graph_reads_child_levels_only_witness :
  fst (create_graph "png" "800,800" (mkHeap two_level [("A", 0); ("B", 1)] no_graph []))
  = fst (create_graph "png" "800,800" (mkHeap two_level [("B", 1)] no_graph []))
  /\ h_dot (snd (create_graph "png" "800,800"
                   (mkHeap two_level [("A", 0); ("B", 1)] no_graph [])))
     = h_dot (snd (create_graph "png" "800,800"
                     (mkHeap two_level [("B", 1)] no_graph []))).
Proof.
  apply (create_graph_reads_child_levels_only "png" "800,800" two_level).
  intros t [<-|[<-|[]]] Ht; [discriminate | reflexivity].
Defined.

Lemma for_each_skip {A S : Type} (body : A -> S -> option S) (l : list A) (s : S) :
  (forall x s', In x l -> body x s' = Some s') -> for_each body l s = Some s.
Proof.
  induction l as [|x l IH]; intros Hb; [reflexivity|]. simpl.
  rewrite (Hb x s (or_introl eq_refl)). apply IH.
  intros y s' Hy. apply Hb. now right.
Qed.

Lemma child_ids_flat (ts : list territory) (p : string) :
  (forall t, In t ts -> truthy (ParentTerritory2Id t) = false) ->
  child_ids ts p = [].
Proof.
  intros Hflat. unfold child_ids.
  induction ts as [|t ts IH]; [reflexivity|]. simpl.
  rewrite (has_parent_root t p (Hflat t (or_introl eq_refl))).
  apply IH. intros t' Hin. apply Hflat. now right.
Qed.

(** For a flat input, where no record has a parent, the first call puts
    every id at level 0 and the second builds a graph with one node per
    record and no edge. *)
Theorem visualize_flat_list (fmt size : string) (ts : list territory) (fs : dict file) :
  (forall t, In t ts -> truthy (ParentTerritory2Id t) = false) ->
  exists lv h,
    (forall fuel, 1 <= fuel ->
       determine_levels fuel ts = Some lv
       /\ visualize fuel fmt size ts fs
          = Some (Ok ("/tmp/territories" ++ "." ++ fmt)%string, h))
    /\ (forall t, In t ts -> dict_get lv (Id t) = Some 0)
    /\ nodes (body (h_dot h)) = map (fun t => (Id t, Name t)) ts
    /\ edges (body (h_dot h)) = [].
Proof.
  intros Hflat. pose (lv := levels (index_territories ts)).
  pose (h0 := mkHeap ts lv no_graph fs).
  assert (Hrun : forall fuel, 1 <= fuel -> determine_levels fuel ts = Some lv).
  { intros fuel Hle. rewrite determine_levels_simple. apply for_each_skip.
    intros x s' _. destruct fuel as [|fuel]; [lia|].
    rewrite assign_simple_S, (child_ids_flat ts x Hflat). reflexivity. }
  assert (Hl : leveled (h_levels h0) (h_territories h0)).
  { intros t Hin Ht. simpl in Hin. rewrite (Hflat t Hin) in Ht. discriminate. }
  exists lv, (snd (create_graph fmt size h0)). split; [|split; [|split]].
  - intros fuel Hle. split; [now apply Hrun|]. unfold visualize.
    rewrite (Hrun fuel Hle). fold h0.
    rewrite <- (proj1 (create_graph_ok fmt size h0 Hl)).
    now rewrite <- surjective_pairing.
  - intros t Hin. apply initial_levels. exists t. auto.
  - apply (graph_nodes_ok fmt size h0 Hl).
  - pose proof (edges_one_per_child _ _ Hl) as HF.
    rewrite (graph_edges_ok fmt size h0 Hl).
    assert (Hnone : filter has_parent_ref (h_territories h0) = []).
    { simpl. clear - Hflat. induction ts as [|t ts IH]; [reflexivity|]. simpl.
      unfold has_parent_ref at 1. rewrite (Hflat t (or_introl eq_refl)).
      apply IH. intros t' Hin. apply Hflat. now right. }
    rewrite Hnone in HF. now inversion HF.
Qed.

Lemma visualize_flat_list_witness :
  exists lv h,
    (forall fuel, 1 <= fuel ->
       determine_levels fuel empty_id = Some lv
       /\ visualize fuel "png" "800,800" empty_id []
          = Some (Ok "/tmp/territories.png", h))
    /\ (forall t, In t empty_id -> dict_get lv (Id t) = Some 0)
    /\ nodes (body (h_dot h)) = map (fun t => (Id t, Name t)) empty_id
    /\ edges (body (h_dot h)) = [].
Proof.
  apply (visualize_flat_list "png" "800,800" empty_id []).
  intros t [<-|[<-|[]]]; reflexivity.
Defined.
